(** * dynamo-ring: version vectors, command tokenizer and client tiers

    A shallow embedding of [util/util.go] (SafeSplit, VectorClock) and of
    the command-line client (SwimringClient), with the properties of the
    design document stated and settled over it. *)

From Stdlib Require Import ZArith Ascii String List Bool Lia.
From Stdlib Require Import DecimalString.
From stdpp Require Import base gmap strings list fin_maps.

Local Open Scope Z_scope.

(* ===================================================================== *)
(** * Go's [int]                                                          *)
(* ===================================================================== *)

(** Go's [int] on the 64-bit targets: a two's complement word. Arithmetic
    that leaves the range wraps around silently (the language defines
    signed overflow as wrap-around; nothing panics). *)
Module GoInt.

Definition intSize : Z := 64.
Definition MaxInt : Z := 2 ^ (intSize - 1) - 1.
Definition MinInt : Z := - 2 ^ (intSize - 1).

Definition in_range (z : Z) : Prop := MinInt <= z <= MaxInt.

(** The representative of [z] modulo [2^64] inside [MinInt..MaxInt]. *)
Definition wrap (z : Z) : Z :=
  (z + 2 ^ (intSize - 1)) mod 2 ^ intSize - 2 ^ (intSize - 1).

(** [x++] *)
Definition incr (x : Z) : Z := wrap (x + 1).

End GoInt.

(* ===================================================================== *)
(** * Vector clocks ([util/util.go])                                      *)
(* ===================================================================== *)

(** Go's time value, as a reading of the wall clock. It is stored in the
    entries and never read by the comparison. *)
Definition Timestamp : Type := Z.

(** [type ClockEntry struct] *)
Record ClockEntry : Type := mkClockEntry {
  NodeID  : string;
  Counter : Z;
  Updated : Timestamp;
}.

(** [type VectorClock struct { Entries map[string]*ClockEntry }].

    A clock is the map that [NewVectorClock] allocates, from node IDs to
    entry values: the entries are owned by their clock ([Update] is the only
    writer and stores a pointer it has just allocated). The fields are
    exported, so the counters stored in a clock are any [int]. *)
Record VectorClock : Type := mkVectorClock {
  Entries : gmap string ClockEntry;
}.

(** [func NewVectorClock() *VectorClock] *)
Definition NewVectorClock : VectorClock :=
  {| Entries := ∅ |}.

(** [func (vc *VectorClock) Update(nodeID string)], with the reading of
    [time.Now()] passed in. The method has no result: the clock after the
    call is what it produces. *)
Definition Update (vc : VectorClock) (nodeID : string) (now : Timestamp) : VectorClock :=
  match Entries vc !! nodeID with
  | Some entry =>
      {| Entries := <[nodeID := {| NodeID := NodeID entry;
                                   Counter := GoInt.incr (Counter entry);
                                   Updated := now |}]> (Entries vc) |}
  | None =>
      {| Entries := <[nodeID := {| NodeID := nodeID;
                                   Counter := 1;
                                   Updated := now |}]> (Entries vc) |}
  end.

(** The two flags of [Compare]. *)
Record Flags : Type := mkFlags { isNewer : bool; isOlder : bool }.

(** Body of [for nodeID, otherEntry := range other.Entries]. *)
Definition scan_other (vc : VectorClock) (fl : Flags) (kv : string * ClockEntry) : Flags :=
  let '(nodeID, otherEntry) := kv in
  match Entries vc !! nodeID with
  | Some thisEntry =>
      if Counter thisEntry <? Counter otherEntry then
        {| isNewer := isNewer fl; isOlder := true |}
      else if Counter thisEntry >? Counter otherEntry then
        {| isNewer := true; isOlder := isOlder fl |}
      else fl
  | None => {| isNewer := isNewer fl; isOlder := true |}
  end.

(** Body of [for nodeID := range vc.Entries]. *)
Definition scan_self (other : VectorClock) (fl : Flags) (kv : string * ClockEntry) : Flags :=
  match Entries other !! kv.1 with
  | Some _ => fl
  | None => {| isNewer := true; isOlder := isOlder fl |}
  end.

(** The final [if]/[else if] chain. *)
Definition verdict (fl : Flags) : string :=
  if isNewer fl && isOlder fl then "CONCURRENT"
  else if isNewer fl then "NEWER"
  else if isOlder fl then "OLDER"
  else "EQUAL".

(** [Compare] along given iteration orders of the two maps: Go ranges over
    a map in an unspecified order, [o_other] and [o_self] are the orders in
    which the two loops happen to visit the entries. *)
Definition Compare_along (vc other : VectorClock)
    (o_other o_self : list (string * ClockEntry)) : string :=
  let fl := foldl (scan_other vc) {| isNewer := false; isOlder := false |} o_other in
  let fl := foldl (scan_self other) fl o_self in
  verdict fl.

(** [func (vc *VectorClock) Compare(other *VectorClock) string] *)
Definition Compare (vc other : VectorClock) : string :=
  Compare_along vc other (map_to_list (Entries other)) (map_to_list (Entries vc)).

(** Applying [Update] for a sequence of (node, time) events, in order. *)
Definition Updates (vc : VectorClock) (evs : list (string * Timestamp)) : VectorClock :=
  foldl (λ c ev, Update c ev.1 ev.2) vc evs.

(** ** The ordering of the design document (absence counts as zero) *)

Definition counter_of (vc : VectorClock) (n : string) : Z :=
  match Entries vc !! n with
  | Some e => Counter e
  | None => 0
  end.

Definition present (vc : VectorClock) (n : string) : Prop :=
  is_Some (Entries vc !! n).

Definition spec_equal (A B : VectorClock) : Prop :=
  ∀ n, present A n ∨ present B n → counter_of A n = counter_of B n.

Definition spec_newer (A B : VectorClock) : Prop :=
  (∀ n, counter_of A n >= counter_of B n) ∧
  (∃ n, counter_of A n > counter_of B n).

Definition spec_older (A B : VectorClock) : Prop := spec_newer B A.

Definition spec_concurrent (A B : VectorClock) : Prop :=
  ¬ spec_equal A B ∧ ¬ spec_newer A B ∧ ¬ spec_older A B.

(** The classification claimed for [Compare]. *)
Definition classifies (A B : VectorClock) : Prop :=
  (Compare A B = "EQUAL" ↔ spec_equal A B) ∧
  (Compare A B = "NEWER" ↔ spec_newer A B) ∧
  (Compare A B = "OLDER" ↔ spec_older A B) ∧
  (Compare A B = "CONCURRENT" ↔ spec_concurrent A B).

(** Every stored counter is at least one: what [NewVectorClock] and
    [Update] build, as long as no counter wraps around. *)
Definition counters_positive (vc : VectorClock) : Prop :=
  ∀ n e, Entries vc !! n = Some e → 1 <= Counter e.

(** What one visit of each loop tests, as predicates on the visited
    entry: the first loop raises [isNewer] at [newer_at] and [isOlder] at
    [older_at], the second raises [isNewer] at [absent_in]. *)
Definition newer_at (vc : VectorClock) (kv : string * ClockEntry) : bool :=
  match Entries vc !! kv.1 with
  | Some thisEntry => Counter thisEntry >? Counter kv.2
  | None => false
  end.

Definition older_at (vc : VectorClock) (kv : string * ClockEntry) : bool :=
  match Entries vc !! kv.1 with
  | Some thisEntry => Counter thisEntry <? Counter kv.2
  | None => true
  end.

Definition absent_in (other : VectorClock) (kv : string * ClockEntry) : bool :=
  match Entries other !! kv.1 with
  | Some _ => false
  | None => true
  end.

(** [A] is ahead of [B] somewhere: a node stored in [A] that [B] does not
    store, or stores with a smaller counter. *)
Definition ahead (A B : VectorClock) : Prop :=
  ∃ n a, Entries A !! n = Some a ∧
         match Entries B !! n with
         | Some b => Counter a > Counter b
         | None => True
         end.

(** How many of the events [evs] update node [n]. *)
Definition updates_of (n : string) (evs : list (string * Timestamp)) : nat :=
  length (filter (λ ev, ev.1 = n) evs).

(** No counter touched by [evs] leaves the range of [int]. *)
Definition no_overflow (C : VectorClock) (evs : list (string * Timestamp)) : Prop :=
  ∀ n, n ∈ evs.*1 →
       GoInt.MinInt <= counter_of C n ∧
       counter_of C n + Z.of_nat (updates_of n evs) <= GoInt.MaxInt.

(* ===================================================================== *)
(** * The command tokenizer ([util/util.go])                              *)
(* ===================================================================== *)

(** Go strings are byte sequences, and so are Rocq's. The pieces of the
    [strings] package that [SafeSplit] calls follow the package's own
    definitions by length and slicing. *)
Module strings.

(** [len(s) >= len(prefix) && s[:len(prefix)] == prefix] *)
Definition HasPrefix (s prefix : string) : bool :=
  (String.length prefix <=? String.length s)%nat &&
  String.eqb (substring 0 (String.length prefix) s) prefix.

(** [len(s) >= len(suffix) && s[len(s)-len(suffix):] == suffix] *)
Definition HasSuffix (s suffix : string) : bool :=
  (String.length suffix <=? String.length s)%nat &&
  String.eqb (substring (String.length s - String.length suffix)
                        (String.length suffix) s) suffix.

(** [if HasPrefix(s, prefix) { return s[len(prefix):] }; return s] *)
Definition TrimPrefix (s prefix : string) : string :=
  if HasPrefix s prefix
  then substring (String.length prefix) (String.length s - String.length prefix) s
  else s.

(** [if HasSuffix(s, suffix) { return s[:len(s)-len(suffix)] }; return s] *)
Definition TrimSuffix (s suffix : string) : string :=
  if HasSuffix s suffix
  then substring 0 (String.length s - String.length suffix) s
  else s.

(** [Split(s, sep)] for a separator of one byte, the only use in the
    source (it splits on the space): the pieces between the occurrences of [sep],
    empty pieces included, so that a string without [sep] (the empty
    string too) gives a list of one piece. *)
Fixpoint Split (s : string) (sep : ascii) : list string :=
  match s with
  | EmptyString => [EmptyString]
  | String c s' =>
      if Ascii.eqb c sep then EmptyString :: Split s' sep
      else match Split s' sep with
           | piece :: pieces => String c piece :: pieces
           | [] => [String c EmptyString]
           end
  end.

(** [strings.Join(elems, sep)], used to name the text of a quoted span. *)
Fixpoint Join (elems : list string) (sep : string) : string :=
  match elems with
  | [] => EmptyString
  | [e] => e
  | e :: rest => e +:+ sep +:+ Join rest sep
  end.

(** [strings.Contains(s, substr)], used to state what a segment holds. *)
Definition Contains (s substr : string) : bool :=
  match String.index 0 substr s with
  | Some _ => true
  | None => false
  end.

End strings.

(** The two quote characters, as one-byte strings. *)
Definition squote : string := String "039"%char EmptyString.
Definition dquote : string := String "034"%char EmptyString.
Definition space : ascii := " "%char.

(** [string(i[0])]: the one-byte string of the first byte. The source
    evaluates it only after [HasPrefix] has found a quote (an ASCII byte)
    at the front of [i], so [i] is not empty there. *)
Definition string_of_first (i : string) : string :=
  match i with
  | String c _ => String c EmptyString
  | EmptyString => EmptyString
  end.

(** The three local variables of [SafeSplit]. *)
Record Scanner : Type := mkScanner {
  result  : list string;
  inquote : string;
  block   : string;
}.

(** [var result []string; var inquote string; var block string] *)
Definition scanner0 : Scanner :=
  {| result := []; inquote := ""; block := "" |}.

(** The body of [for _, i := range split]. *)
Definition SafeSplit_step (st : Scanner) (i : string) : Scanner :=
  if String.eqb (inquote st) "" then
    if strings.HasPrefix i squote || strings.HasPrefix i dquote then
      let q := string_of_first i in
      {| result := result st;
         inquote := q;
         block := strings.TrimPrefix i q +:+ " " |}
    else
      {| result := result st ++ [i];
         inquote := inquote st;
         block := block st |}
  else
    if negb (strings.HasSuffix i (inquote st)) then
      {| result := result st;
         inquote := inquote st;
         block := block st +:+ i +:+ " " |}
    else
      {| result := result st ++ [block st +:+ strings.TrimSuffix i (inquote st)];
         inquote := "";
         block := "" |}.

(** The loop over a list of tokens, from a given state. *)
Definition SafeSplit_loop (st : Scanner) (split : list string) : Scanner :=
  foldl SafeSplit_step st split.

(** [func SafeSplit(s string) []string] *)
Definition SafeSplit (s : string) : list string :=
  result (SafeSplit_loop scanner0 (strings.Split s space)).

(** A token that opens a quoted span: it begins with one of the two quote
    characters and is read while no span is open. *)
Definition begins_with_quote (tok : string) : bool :=
  strings.HasPrefix tok squote || strings.HasPrefix tok dquote.

(** The design document's reading of an unterminated quote: the text
    [text] ends up inside the last segment of the result. *)
Definition in_last_segment (text : string) (res : list string) : Prop :=
  ∃ seg, last res = Some seg ∧ strings.Contains seg text = true.

(** What [block] has gathered from the tokens [toks] of an open span:
    each followed by a space. *)
Definition buffered (toks : list string) : string :=
  foldr (λ t acc, (t +:+ " ") +:+ acc) "" toks.

(** The text of a span opened by [tok] and running over [post]: the words
    after the quote character, joined by single spaces. *)
Definition span_text (tok : string) (post : list string) : string :=
  strings.Join (strings.TrimPrefix tok (string_of_first tok) :: post) " ".

(** The design document on unterminated quotes, for one line: whenever a
    token opens a span that no later token closes, the text of the span is
    in the last segment of the result. *)
Definition unterminated_kept (line : string) : Prop :=
  ∀ pre tok post,
    strings.Split line space = pre ++ tok :: post →
    inquote (SafeSplit_loop scanner0 pre) = "" →
    begins_with_quote tok = true →
    (∀ t, t ∈ post → strings.HasSuffix t (string_of_first tok) = false) →
    in_last_segment (span_text tok post) (SafeSplit line).

(** Reading the token [tok] after the tokens [pre] opens a span for the
    quote [q] and closes none: [q] is pending afterwards and nothing was
    appended to the result. *)
Definition opens_only (pre : list string) (tok q : string) : Prop :=
  inquote (SafeSplit_loop scanner0 (pre ++ [tok])) = q ∧
  result (SafeSplit_loop scanner0 (pre ++ [tok])) =
    result (SafeSplit_loop scanner0 pre).

(** The statement about tokens that begin and end with the same quote,
    for one line and wherever such a token stands in it. *)
Definition quoted_token_opens_only (line : string) : Prop :=
  ∀ pre tok post q,
    strings.Split line space = pre ++ tok :: post →
    q = squote ∨ q = dquote →
    (2 <= String.length tok)%nat →
    strings.HasPrefix tok q = true →
    strings.HasSuffix tok q = true →
    opens_only pre tok q ∧
    ((∀ t, t ∈ post → strings.HasSuffix t q = false) →
     SafeSplit line = result (SafeSplit_loop scanner0 pre)).

(* ===================================================================== *)
(** * The client ([SwimringClient])                                       *)
(* ===================================================================== *)

Definition GetCmd : string := "get".
Definition PutCmd : string := "put".
Definition DeleteCmd : string := "del".
Definition StatCmd : string := "stat".
Definition ExitCmd : string := "exit".

Definition ONE : string := "ONE".
Definition QUORUM : string := "QUORUM".
Definition ALL : string := "ALL".
Definition GetOp : string := "SwimRing.Get".
Definition PutOp : string := "SwimRing.Put".
Definition DeleteOp : string := "SwimRing.Delete".
Definition StatOp : string := "SwimRing.Stat".

(** Go's [error] values, by their message; [errors.New(msg)]. *)
Inductive error : Type := errors_New (msg : string).

(** [*rpc.Client]: the session obtained by dialling an endpoint. *)
Record rpc_Client : Type := mk_rpc_Client {
  peer_host : string;
  peer_port : Z;
}.

Record GetRequest : Type := mkGetRequest { get_Level : string; get_Key : string }.
Record GetResponse : Type := mkGetResponse { resp_Key : string; resp_Value : string }.
Record PutRequest : Type := mkPutRequest {
  put_Level : string; put_Key : string; put_Value : string }.
Record DeleteRequest : Type := mkDeleteRequest { del_Level : string; del_Key : string }.
Record NodeStat : Type := mkNodeStat {
  Address : string; Status : string; KeyCount : Z }.
Definition NodeStats : Type := list NodeStat.
Record StateResponse : Type := mkStateResponse { Nodes : list NodeStat }.

(** [type SwimringClient struct]; [client] is [None] for the nil pointer. *)
Record SwimringClient : Type := mkSwimringClient {
  address    : string;
  port       : Z;
  client     : option rpc_Client;
  readLevel  : string;
  writeLevel : string;
}.

(** What goes over the wire: the service method and its arguments. *)
Inductive RpcArgs : Type :=
  | ArgsGet (req : GetRequest)
  | ArgsPut (req : PutRequest)
  | ArgsDelete (req : DeleteRequest)
  | ArgsStat.

Record RpcEvent : Type := mkRpcEvent {
  ev_session : rpc_Client;
  ev_method  : string;
  ev_args    : RpcArgs;
}.

(** The state the client's methods act on: the client object and the
    remote calls issued so far, oldest first. *)
Record Sys : Type := mkSys {
  self : SwimringClient;
  wire : list RpcEvent;
}.

(** The far end: what a dial and each remote call answer, given the calls
    seen before. *)
Record Remote : Type := mkRemote {
  dial      : string → Z → error + rpc_Client;
  on_Get    : list RpcEvent → GetRequest → error + GetResponse;
  on_Put    : list RpcEvent → PutRequest → option error;
  on_Delete : list RpcEvent → DeleteRequest → option error;
  on_Stat   : list RpcEvent → error + StateResponse;
}.

(** [func NewSwimringClient(address string, port int) *SwimringClient] *)
Definition NewSwimringClient (address : string) (port : Z) : SwimringClient :=
  {| address := address;
     port := port;
     client := None;
     readLevel := ALL;
     writeLevel := ALL |}.

(** [func (c *SwimringClient) SetReadLevel(level string)] *)
Definition SetReadLevel (level : string) (s : Sys) : Sys :=
  {| self := {| address := address (self s);
                port := port (self s);
                client := client (self s);
                readLevel := level;
                writeLevel := writeLevel (self s) |};
     wire := wire s |}.

(** [func (c *SwimringClient) SetWriteLevel(level string)] *)
Definition SetWriteLevel (level : string) (s : Sys) : Sys :=
  {| self := {| address := address (self s);
                port := port (self s);
                client := client (self s);
                readLevel := readLevel (self s);
                writeLevel := level |};
     wire := wire s |}.

Section Methods.

Variable srv : Remote.

(** [c.client.Call(op, req, resp)]: the call is recorded on the wire. *)
Definition issue (h : rpc_Client) (op : string) (args : RpcArgs) (s : Sys) : Sys :=
  {| self := self s;
     wire := wire s ++ [{| ev_session := h; ev_method := op; ev_args := args |}] |}.

(** [func (c *SwimringClient) Connect() error]: the result of the dial is
    stored in [c.client] whether it failed or not (a failed dial gives the
    nil client). *)
Definition Connect (s : Sys) : option error * Sys :=
  match dial srv (address (self s)) (port (self s)) with
  | inl err =>
      (Some err,
       {| self := {| address := address (self s); port := port (self s);
                     client := None;
                     readLevel := readLevel (self s);
                     writeLevel := writeLevel (self s) |};
          wire := wire s |})
  | inr h =>
      (None,
       {| self := {| address := address (self s); port := port (self s);
                     client := Some h;
                     readLevel := readLevel (self s);
                     writeLevel := writeLevel (self s) |};
          wire := wire s |})
  end.

(** [func (c *SwimringClient) Get(key string) (string, error)] *)
Definition Get (key : string) (s : Sys) : (string * option error) * Sys :=
  match client (self s) with
  | None => (("", Some (errors_New "not connected")), s)
  | Some h =>
      let req := {| get_Key := key; get_Level := readLevel (self s) |} in
      let s' := issue h GetOp (ArgsGet req) s in
      match on_Get srv (wire s) req with
      | inl err => (("", Some err), s')
      | inr resp => ((resp_Value resp, None), s')
      end
  end.

(** [func (c *SwimringClient) Put(key, value string) error] *)
Definition Put (key value : string) (s : Sys) : option error * Sys :=
  match client (self s) with
  | None => (Some (errors_New "not connected"), s)
  | Some h =>
      let req := {| put_Key := key; put_Value := value;
                    put_Level := writeLevel (self s) |} in
      let s' := issue h PutOp (ArgsPut req) s in
      match on_Put srv (wire s) req with
      | Some err => (Some err, s')
      | None => (None, s')
      end
  end.

(** [func (c *SwimringClient) Delete(key string) error] *)
Definition Delete (key : string) (s : Sys) : option error * Sys :=
  match client (self s) with
  | None => (Some (errors_New "not connected"), s)
  | Some h =>
      let req := {| del_Key := key; del_Level := writeLevel (self s) |} in
      let s' := issue h DeleteOp (ArgsDelete req) s in
      match on_Delete srv (wire s) req with
      | Some err => (Some err, s')
      | None => (None, s')
      end
  end.

(** [func (c *SwimringClient) Stat() (NodeStats, error)]; the nil slice of
    the failing paths is the empty list. *)
Definition Stat (s : Sys) : (NodeStats * option error) * Sys :=
  match client (self s) with
  | None => (([], Some (errors_New "not connected")), s)
  | Some h =>
      let s' := issue h StatOp ArgsStat s in
      match on_Stat srv (wire s) with
      | inl err => (([], Some err), s')
      | inr resp => ((Nodes resp, None), s')
      end
  end.

End Methods.

(* ===================================================================== *)
(** * Concrete clocks, lines and clients used by the examples             *)
(* ===================================================================== *)

(** A clock with a stored counter of zero, and two clocks grown from the
    empty one by [Update]. *)
Definition zero_entry_clock : VectorClock :=
  {| Entries := {[ "a" := {| NodeID := "a"; Counter := 0; Updated := 0 |} ]} |}.

Definition clock_n1_n1 : VectorClock :=
  Updates NewVectorClock [("n1", 10); ("n1", 20)].

Definition clock_n1_n2 : VectorClock :=
  Updates NewVectorClock [("n1", 10); ("n2", 15)].

(** A clock one step below the largest counter. *)
Definition near_max_clock : VectorClock :=
  {| Entries := {[ "a" := {| NodeID := "a";
                             Counter := GoInt.MaxInt - 1;
                             Updated := 0 |} ]} |}.

(** The ancestor whose counter for node a is already the largest int. *)
Definition max_clock : VectorClock :=
  {| Entries := {[ "a" := {| NodeID := "a";
                             Counter := GoInt.MaxInt;
                             Updated := 0 |} ]} |}.

(** The command lines of the examples. *)
Definition line_put_quoted : string :=
  "put " +:+ dquote +:+ "hello world" +:+ dquote +:+ " value".
Definition line_get_key1 : string := "get key1".
Definition line_get_hi : string := "get " +:+ dquote +:+ "hi" +:+ dquote.
Definition line_get_open : string := "get " +:+ dquote +:+ "hi there".
Definition line_span_then_quoted : string :=
  dquote +:+ "a " +:+ dquote +:+ "hi" +:+ dquote.

(** A far end that answers every call, and a fresh client facing it. *)
Definition echo_remote : Remote :=
  {| dial := λ host p, inr {| peer_host := host; peer_port := p |};
     on_Get := λ _ req, inr {| resp_Key := get_Key req; resp_Value := "v" |};
     on_Put := λ _ _, None;
     on_Delete := λ _ _, None;
     on_Stat := λ _, inr {| Nodes := [] |} |}.

Definition fresh_sys : Sys :=
  {| self := NewSwimringClient "127.0.0.1" 7000; wire := [] |}.

(* ===================================================================== *)
(** * Vector clocks: what the comparison reads, and histories             *)
(* ===================================================================== *)

(** The counters of a clock, node by node: the part of the entries that
    [Compare] reads. *)
Definition counters (vc : VectorClock) : gmap string Z :=
  Counter <$> Entries vc.

(** The clock reading passed with the most recent of the events [evs]
    that update node [n]. *)
Definition last_update (n : string) (evs : list (string * Timestamp)) : option Timestamp :=
  last (filter (λ ev, ev.1 = n) evs).*2.

(** The same two updates of n1 as [clock_n1_n1], at later times. *)
Definition clock_n1_n1_later : VectorClock :=
  Updates NewVectorClock [("n1", 100); ("n1", 200)].

(** A third generation for the examples on ordering. *)
Definition clock_n1_n1_n1 : VectorClock :=
  Updates NewVectorClock [("n1", 10); ("n1", 20); ("n1", 30)].

(** The state of the loop with the segments [r] put in front of its
    result. *)
Definition prepend (r : list string) (st : Scanner) : Scanner :=
  {| result := r ++ result st; inquote := inquote st; block := block st |}.

(** Two more command lines: a put whose value is a quoted span, and two
    unquoted words after a word. *)
Definition line_put_k_quoted : string :=
  "put k " +:+ dquote +:+ "a b" +:+ dquote.
Definition line_open_only : string := dquote +:+ "never closed".

(* ===================================================================== *)
(** * The command shell ([main], [processCommand] and the handlers)       *)
(* ===================================================================== *)

(** A far end that refuses every dial. *)
Definition dead_remote : Remote :=
  {| dial := λ _ _, inl (errors_New "connection refused");
     on_Get := λ _ _, inl (errors_New "unreachable");
     on_Put := λ _ _, Some (errors_New "unreachable");
     on_Delete := λ _ _, Some (errors_New "unreachable");
     on_Stat := λ _, inl (errors_New "unreachable") |}.

(** A client that holds a session. *)
Definition connected_sys : Sys :=
  {| self := {| address := "127.0.0.1"; port := 7000;
                client := Some {| peer_host := "127.0.0.1"; peer_port := 7000 |};
                readLevel := QUORUM; writeLevel := ONE |};
     wire := [] |}.

(** [err.Error()] *)
Definition Error (e : error) : string :=
  match e with errors_New msg => msg end.

(** The line feed, and the cut set of the [strings.Trim] in [main]: blank,
    carriage return, line feed. *)
Definition nl : string := String "010"%char EmptyString.
Definition trim_cutset : string :=
  String " "%char (String "013"%char (String "010"%char EmptyString)).

(** [strings.TrimLeft], [strings.TrimRight] and [strings.Trim] for a cut set
    of ASCII characters: the bytes of the cut set are dropped from the
    ends. *)
Definition in_cutset (cutset : string) (c : ascii) : bool :=
  existsb (Ascii.eqb c) (list_ascii_of_string cutset).

Fixpoint TrimLeft (s cutset : string) : string :=
  match s with
  | EmptyString => EmptyString
  | String c s' => if in_cutset cutset c then TrimLeft s' cutset else s
  end.

Definition TrimRight (s cutset : string) : string :=
  String.rev (TrimLeft (String.rev s) cutset).

Definition Trim (s cutset : string) : string :=
  TrimLeft (TrimRight s cutset) cutset.

(** How the process stopped, if it did: [os.Exit(code)], or a run-time
    panic. *)
Inductive Halt : Type :=
  | Exited (code : Z)
  | Panicked.

(** The process: the client object behind the package variable [client]
    with the calls it issued, what was written to the standard output (one
    item per write, in order), and whether the process has stopped. *)
Record Shell : Type := mkShell {
  sys    : Sys;
  stdout : list string;
  halted : option Halt;
}.

Definition with_sys (s : Sys) (sh : Shell) : Shell :=
  {| sys := s; stdout := stdout sh; halted := halted sh |}.

(** [fmt.Print(text)] *)
Definition Print (text : string) (sh : Shell) : Shell :=
  {| sys := sys sh; stdout := stdout sh ++ [text]; halted := halted sh |}.

(** [fmt.Println(text)] *)
Definition Println (text : string) (sh : Shell) : Shell :=
  Print (text +:+ nl) sh.

(** [os.Exit(code)] and a panic *)
Definition halt (h : Halt) (sh : Shell) : Shell :=
  {| sys := sys sh; stdout := stdout sh; halted := Some h |}.

Section ShellDefs.

Variable srv : Remote.

(** The parts outside the repository: [strconv.Itoa] (and the [%d] verb),
    [sort.Sort] on the nodes ([None] when a call of [Less] panics), and
    what the table writer writes for the rows under the header Address,
    Status, Key Count. *)
Variable Itoa : Z → string.
Variable sort_Sort : NodeStats → option NodeStats.
Variable table_Render : list (list string) → list string.

(** [func processGet(tokens []string)] *)
Definition processGet (tokens : list string) (sh : Shell) : Shell :=
  match tokens with
  | [_; key] =>
      match Get srv key (sys sh) with
      | ((_, Some err), s') => Println ("error: " +:+ Error err) (with_sys s' sh)
      | ((val, None), s') => Println val (with_sys s' sh)
      end
  | _ => Println "usage: get <key>" sh
  end.

(** [func processPut(tokens []string)] *)
Definition processPut (tokens : list string) (sh : Shell) : Shell :=
  match tokens with
  | [_; key; value] =>
      match Put srv key value (sys sh) with
      | (Some err, s') => Println ("error: " +:+ Error err) (with_sys s' sh)
      | (None, s') => Println "ok" (with_sys s' sh)
      end
  | _ => Println "usage: put <key> <value>" sh
  end.

(** [func processDelete(tokens []string)] *)
Definition processDelete (tokens : list string) (sh : Shell) : Shell :=
  match tokens with
  | [_; key] =>
      match Delete srv key (sys sh) with
      | (Some err, s') => Println ("error: " +:+ Error err) (with_sys s' sh)
      | (None, s') => Println "ok" (with_sys s' sh)
      end
  | _ => Println "usage: del <key>" sh
  end.

(** One row of the table: address, status, key count. *)
Definition stat_row (node : NodeStat) : list string :=
  [Address node; Status node; Itoa (KeyCount node)].

(** [func processStat(tokens []string)]; the tokens are not looked at. *)
Definition processStat (tokens : list string) (sh : Shell) : Shell :=
  match Stat srv (sys sh) with
  | ((_, Some err), s') => Println ("error: " +:+ Error err) (with_sys s' sh)
  | ((nodes, None), s') =>
      match sort_Sort nodes with
      | None => halt Panicked (with_sys s' sh)
      | Some sorted =>
          {| sys := s';
             stdout := stdout sh ++ table_Render (stat_row <$> sorted);
             halted := halted sh |}
      end
  end.

(** [func processCommand(line string) error] *)
Definition processCommand (line : string) (sh : Shell) : option error * Shell :=
  match SafeSplit line with
  | [] => (None, sh)
  | cmd :: rest =>
      if String.eqb cmd GetCmd then (None, processGet (cmd :: rest) sh)
      else if String.eqb cmd PutCmd then (None, processPut (cmd :: rest) sh)
      else if String.eqb cmd DeleteCmd then (None, processDelete (cmd :: rest) sh)
      else if String.eqb cmd StatCmd then (None, processStat (cmd :: rest) sh)
      else if String.eqb cmd ExitCmd then (None, halt (Exited 0) sh)
      else (Some (errors_New "unknown command"), sh)
  end.

(** One turn of the loop of [main] on the text [command] that
    [reader.ReadString] returned. *)
Definition main_turn (command : string) (sh : Shell) : Shell :=
  let sh := Print "> " sh in
  match processCommand (Trim command trim_cutset) sh with
  | (Some err, sh') =>
      match halted sh' with
      | Some _ => sh'
      | None => Println (Error err) sh'
      end
  | (None, sh') => sh'
  end.

(** The loop of [main] over the texts read, until the process stops. The
    loop itself never ends: [sh] after the last text is where the process
    stands when it waits for the next one. *)
Fixpoint main_loop (commands : list string) (sh : Shell) : Shell :=
  match halted sh with
  | Some _ => sh
  | None =>
      match commands with
      | [] => sh
      | command :: rest => main_loop rest (main_turn command sh)
      end
  end.

(** [main] up to the loop, from the values of the four flags. *)
Definition main_start (serverAddr : string) (serverPort : Z)
    (readLevel writeLevel : string) : Shell :=
  let s := {| self := NewSwimringClient serverAddr serverPort; wire := [] |} in
  let s := SetReadLevel readLevel s in
  let s := SetWriteLevel writeLevel s in
  let sh := {| sys := s; stdout := []; halted := None |} in
  match Connect srv s with
  | (Some _, s') =>
      halt (Exited 0)
        (Print ("error: unable to connect to " +:+ serverAddr +:+ ":" +:+
                Itoa serverPort +:+ nl) (with_sys s' sh))
  | (None, s') =>
      Print ("connected to " +:+ serverAddr +:+ ":" +:+ Itoa serverPort +:+ nl)
        (with_sys s' sh)
  end.

End ShellDefs.

(** Stand-ins for the three outside parts, for the examples: decimal
    numerals, a sort that leaves the nodes as they are, and a table of one
    line per row. *)
Definition decimal (z : Z) : string := NilZero.string_of_int (Z.to_int z).
Definition keep_order (ns : NodeStats) : option NodeStats := Some ns.
Definition row_lines (rows : list (list string)) : list string :=
  (λ row, strings.Join row " " +:+ nl) <$> rows.

(** A shell at its prompt with a session, and one without. *)
Definition connected_shell : Shell :=
  {| sys := connected_sys; stdout := []; halted := None |}.
Definition fresh_shell : Shell :=
  {| sys := fresh_sys; stdout := []; halted := None |}.

(** The five command words. *)
Definition known_command (cmd : string) : bool :=
  String.eqb cmd GetCmd || String.eqb cmd PutCmd || String.eqb cmd DeleteCmd ||
  String.eqb cmd StatCmd || String.eqb cmd ExitCmd.

(** What an operation may do to the state: nothing to the client object,
    and at most one call appended to the wire, none without a session. *)
Definition one_call_at_most (s s' : Sys) : Prop :=
  self s' = self s ∧
  ∃ evs, wire s' = wire s ++ evs ∧
         (client (self s) = None → evs = []) ∧
         (is_Some (client (self s)) → length evs = 1%nat).

(** What handling one command line may do to the process: nothing to the
    client object, at most one call appended to the wire (none without a
    session), and writes appended to the output. *)
Definition handled (sh sh' : Shell) : Prop :=
  self (sys sh') = self (sys sh) ∧
  (∃ evs, wire (sys sh') = wire (sys sh) ++ evs ∧
          (length evs ≤ 1)%nat ∧
          (client (self (sys sh)) = None → evs = [])) ∧
  (∃ out, stdout sh' = stdout sh ++ out).

(** Command texts as [reader.ReadString] returns them. *)
Definition text_exit_now : string :=
  " exit now" +:+ String "013"%char EmptyString +:+ nl.
Definition text_stat : string := "stat" +:+ nl.

(* ===================================================================== *)
(** * [NodeStats] as the sort interface ([Len], [Less], [Swap])           *)
(* ===================================================================== *)

Definition colon : ascii := ":"%char.

(** [func (ns NodeStats) Len() int] *)
Definition Len (ns : NodeStats) : Z := Z.of_nat (length ns).

Section LessDef.

(** [strconv.Atoi], outside the repository: the number it returns (its
    error is dropped by [Less]). *)
Variable Atoi : string → Z.

(** [func (ns NodeStats) Less(i, j int) bool]; [None] is the run-time
    panic of an index out of range, on [ns] or on the tokens of an
    address. *)
Definition Less (ns : NodeStats) (i j : nat) : option bool :=
  match ns !! i, ns !! j with
  | Some ni, Some nj =>
      match strings.Split (Address ni) colon, strings.Split (Address nj) colon with
      | ihost :: itail, jhost :: jtail =>
          if negb (String.eqb ihost jhost) then Some (String.ltb ihost jhost)
          else
            match itail, jtail with
            | iport :: _, jport :: _ => Some (Atoi iport <? Atoi jport)
            | _, _ => None
            end
      | _, _ => None
      end
  | _, _ => None
  end.

End LessDef.

(** [func (ns NodeStats) Swap(i, j int)]: the slice after the exchange,
    [None] for the panic of an index out of range. *)
Definition Swap (ns : NodeStats) (i j : nat) : option NodeStats :=
  match ns !! i, ns !! j with
  | Some ni, Some nj => Some (<[j := ni]> (<[i := nj]> ns))
  | _, _ => None
  end.

(** The text of an address before its first colon, and the text between
    the first and the second colon, if there is a colon. *)
Definition host_of (n : NodeStat) : string :=
  match strings.Split (Address n) colon with
  | host :: _ => host
  | [] => EmptyString
  end.

Definition port_text (n : NodeStat) : option string :=
  match strings.Split (Address n) colon with
  | _ :: p :: _ => Some p
  | _ => None
  end.

(** The order [Less] puts on (host, port number) pairs. *)
Definition key_lt (k1 k2 : string * Z) : bool :=
  if negb (String.eqb k1.1 k2.1) then String.ltb k1.1 k2.1 else k1.2 <? k2.2.

(** For the examples: the value of an unsigned decimal numeral, 0 for any
    other text. *)
Definition digit_value (c : ascii) : option Z :=
  let n := Z.of_N (N_of_ascii c) in
  if (48 <=? n) && (n <=? 57) then Some (n - 48) else None.

Fixpoint digits_value (acc : Z) (s : string) : option Z :=
  match s with
  | EmptyString => Some acc
  | String c s' =>
      match digit_value c with
      | Some d => digits_value (acc * 10 + d) s'
      | None => None
      end
  end.

Definition numeral_value (s : string) : Z :=
  match s with
  | EmptyString => 0
  | _ => default 0 (digits_value 0 s)
  end.

Definition three_nodes : NodeStats :=
  [ {| Address := "10.0.0.2:7000"; Status := "alive"; KeyCount := 3 |};
    {| Address := "10.0.0.1:7001"; Status := "alive"; KeyCount := 0 |};
    {| Address := "10.0.0.1:800"; Status := "faulty"; KeyCount := 5 |} ].

Definition portless_nodes : NodeStats :=
  [ {| Address := "localhost"; Status := "alive"; KeyCount := 1 |};
    {| Address := "localhost"; Status := "alive"; KeyCount := 2 |} ].

(** The address of the node has a colon: splitting it gives a host and a
    port text. *)
Definition has_port (n : NodeStat) : Prop :=
  (2 ≤ length (strings.Split (Address n) colon))%nat.

(** The exchange of two positions. *)
Definition transpose (i j k : nat) : nat :=
  if decide (k = i) then j else if decide (k = j) then i else k.

(* ===================================================================== *)
(** * The rest of [util/util.go]                                          *)
(* ===================================================================== *)

Definition loopbackIP : string := "127.0.0.1".

(** [func SelectIntOpt(opt, def int) int] *)
Definition SelectIntOpt (opt def : Z) : Z :=
  if opt =? 0 then def else opt.

(** [func SelectDurationOpt(opt, def time.Duration) time.Duration]; a
    duration is a 64-bit count of nanoseconds. *)
Definition SelectDurationOpt (opt def : Z) : Z :=
  if opt =? 0 then def else opt.

Section LocalIP.

(** The [net] package is outside the repository: its addresses and the
    three methods [GetLocalIP] calls on them are parameters ([To4] gives
    [None] for Go's nil). *)
Variable IP : Type.
Variable IsLoopback : IP → bool.
Variable To4 : IP → option IP.
Variable IP_String : IP → string.

(** An element of what [net.InterfaceAddrs] returns: a [*net.IPNet] (its
    mask plays no part) or an address of another kind. *)
Inductive net_Addr : Type :=
  | Addr_IPNet (ip : IP)
  | Addr_other.

(** The test of the loop: an IP network address that is not a loopback
    address and has a 4-byte form. *)
Definition usable (addr : net_Addr) : bool :=
  match addr with
  | Addr_IPNet ip =>
      negb (IsLoopback ip) && match To4 ip with Some _ => true | None => false end
  | Addr_other => false
  end.

(** [for _, addr := range addrs { ... }; return loopbackIP] *)
Fixpoint GetLocalIP_scan (addrs : list net_Addr) : string :=
  match addrs with
  | [] => loopbackIP
  | addr :: rest =>
      match addr with
      | Addr_IPNet ip =>
          if negb (IsLoopback ip) then
            match To4 ip with
            | Some _ => IP_String ip
            | None => GetLocalIP_scan rest
            end
          else GetLocalIP_scan rest
      | Addr_other => GetLocalIP_scan rest
      end
  end.

(** [func GetLocalIP() string], from what [net.InterfaceAddrs()] returns. *)
Definition GetLocalIP (InterfaceAddrs : error + list net_Addr) : string :=
  match InterfaceAddrs with
  | inl _ => loopbackIP
  | inr addrs => GetLocalIP_scan addrs
  end.

End LocalIP.

Section Rendering.

(** The [%d] verb of [fmt.Sprintf], outside the repository. *)
Variable Itoa : Z → string.

(** What [fmt.Sprintf] makes of one entry: the node ID, a colon, the
    counter in decimal and a blank. *)
Definition String_cell (kv : string * ClockEntry) : string :=
  kv.1 +:+ ":" +:+ Itoa (Counter kv.2) +:+ " ".

(** The loop of [String] along an order of visiting the entries. *)
Definition String_along (o : list (string * ClockEntry)) : string :=
  foldl (λ result kv, result +:+ String_cell kv) "" o.

(** [func (vc *VectorClock) String() string] *)
Definition VectorClock_String (vc : VectorClock) : string :=
  String_along (map_to_list (Entries vc)).

End Rendering.

(** For the examples: addresses as four numbers, all with a 4-byte form. *)
Definition quad : Type := Z * Z * Z * Z.
Definition quad_loopback (q : quad) : bool := q.1.1.1 =? 127.
Definition quad_To4 (q : quad) : option quad := Some q.
Definition quad_String (q : quad) : string :=
  decimal q.1.1.1 +:+ "." +:+ decimal q.1.1.2 +:+ "." +:+
  decimal q.1.2 +:+ "." +:+ decimal q.2.

(* ===================================================================== *)
(** * [Update] on every value of the Go type                              *)
(* ===================================================================== *)

(** A [VectorClock] as Go admits it: the [Entries] map may be nil ([None]),
    as in the zero value [VectorClock{}], which [NewVectorClock] is there to
    avoid. *)
Record GoVectorClock : Type := mkGoVectorClock {
  GoEntries : option (gmap string ClockEntry);
}.

(** [var vc VectorClock] *)
Definition zero_VectorClock : GoVectorClock :=
  {| GoEntries := None |}.

(** A clock whose map is allocated, as a value of the Go type. *)
Definition allocated (vc : VectorClock) : GoVectorClock :=
  {| GoEntries := Some (Entries vc) |}.

(** [func (vc *VectorClock) Update(nodeID string)] on such a value; [None]
    is the run-time panic. A lookup in a nil map finds nothing, so the
    [else] branch runs, and its assignment to an entry of the nil map
    panics. *)
Definition Update_go (vc : GoVectorClock) (nodeID : string) (now : Timestamp)
    : option GoVectorClock :=
  match GoEntries vc with
  | Some entries =>
      match entries !! nodeID with
      | Some entry =>
          Some {| GoEntries :=
                    Some (<[nodeID := {| NodeID := NodeID entry;
                                         Counter := GoInt.incr (Counter entry);
                                         Updated := now |}]> entries) |}
      | None =>
          Some {| GoEntries :=
                    Some (<[nodeID := {| NodeID := nodeID;
                                         Counter := 1;
                                         Updated := now |}]> entries) |}
      end
  | None => None
  end.

(** The node ID and the counter of an entry: the entry without its time. *)
Definition id_and_counter (e : ClockEntry) : string * Z :=
  (NodeID e, Counter e).

(** The entry [Update] stores for [nodeID] at time [now]. *)
Definition stored_by_Update (vc : VectorClock) (nodeID : string) (now : Timestamp)
    : ClockEntry :=
  match Entries vc !! nodeID with
  | Some entry => {| NodeID := NodeID entry;
                     Counter := GoInt.incr (Counter entry);
                     Updated := now |}
  | None => {| NodeID := nodeID; Counter := 1; Updated := now |}
  end.

(* ===================================================================== *)
(** * Facts about [int]                                                   *)
(* ===================================================================== *)

Lemma wrap_in_range z : GoInt.in_range (GoInt.wrap z).
Proof.
  unfold GoInt.in_range, GoInt.wrap, GoInt.MinInt, GoInt.MaxInt, GoInt.intSize.
  pose proof (Z.mod_pos_bound (z + 2 ^ (64 - 1)) (2 ^ 64) ltac:(lia)) as H.
  change (2 ^ (64 - 1)) with 9223372036854775808 in *.
  change (2 ^ 64) with 18446744073709551616 in *. lia.
Qed.

Lemma wrap_id z : GoInt.in_range z → GoInt.wrap z = z.
Proof.
  unfold GoInt.in_range, GoInt.wrap, GoInt.MinInt, GoInt.MaxInt, GoInt.intSize.
  change (2 ^ (64 - 1)) with 9223372036854775808.
  change (2 ^ 64) with 18446744073709551616.
  intros H. rewrite Z.mod_small; lia.
Qed.

Lemma incr_no_overflow x :
  GoInt.MinInt <= x < GoInt.MaxInt → GoInt.incr x = x + 1.
Proof. intros H. apply wrap_id. unfold GoInt.in_range. lia. Qed.

Lemma incr_overflow : GoInt.incr GoInt.MaxInt = GoInt.MinInt.
Proof. reflexivity. Qed.

(* ===================================================================== *)
(** * [Compare]: what the two loops compute                               *)
(* ===================================================================== *)

(** Closes the goals about the four results once both flags are known. *)
Ltac flag_cases := intuition (try discriminate; try congruence).

Section CompareLoops.

Implicit Types (vc other A B : VectorClock) (fl : Flags).
Implicit Types (l : list (string * ClockEntry)).

Lemma foldl_scan_other vc l fl :
  isNewer (foldl (scan_other vc) fl l) = isNewer fl || existsb (newer_at vc) l ∧
  isOlder (foldl (scan_other vc) fl l) = isOlder fl || existsb (older_at vc) l.
Proof.
  revert fl. induction l as [|[n oe] l IH]; intros fl; cbn [foldl existsb].
  - by rewrite !orb_false_r.
  - destruct (IH (scan_other vc fl (n, oe))) as [-> ->].
    unfold scan_other, newer_at, older_at; simpl.
    destruct (Entries vc !! n) as [te|]; simpl.
    + destruct (Z.ltb_spec (Counter te) (Counter oe)) as [Hlt|Hge]; simpl.
      * assert ((Counter te >? Counter oe) = false) as -> by lia.
        by rewrite orb_true_r.
      * destruct (Counter te >? Counter oe); simpl;
          rewrite ?orb_true_r, ?orb_false_r; done.
    + by rewrite orb_true_r.
Qed.

Lemma foldl_scan_self other l fl :
  isNewer (foldl (scan_self other) fl l) = isNewer fl || existsb (absent_in other) l ∧
  isOlder (foldl (scan_self other) fl l) = isOlder fl.
Proof.
  revert fl. induction l as [|[n e] l IH]; intros fl; cbn [foldl existsb].
  - by rewrite orb_false_r.
  - destruct (IH (scan_self other fl (n, e))) as [-> ->].
    unfold scan_self, absent_in; simpl.
    destruct (Entries other !! n); simpl; [done|].
    by rewrite orb_true_r.
Qed.

Lemma existsb_elem_of {X} (p : X → bool) (xs : list X) :
  existsb p xs = true ↔ ∃ x, x ∈ xs ∧ p x = true.
Proof.
  rewrite existsb_exists. split; intros (x & Hx & Hp); exists x;
    (split; [by apply list_elem_of_In | done]).
Qed.

(** The flags after both loops, whatever the orders of the visits. *)
Lemma Compare_along_flags A B (o_other o_self : list (string * ClockEntry)) :
  (∀ kv, kv ∈ o_other ↔ kv ∈ map_to_list (Entries B)) →
  (∀ kv, kv ∈ o_self ↔ kv ∈ map_to_list (Entries A)) →
  ∃ fl, Compare_along A B o_other o_self = verdict fl ∧
        (isNewer fl = true ↔ ahead A B) ∧
        (isOlder fl = true ↔ ahead B A).
Proof.
  intros Ho Hs. eexists. split; [reflexivity|].
  destruct (foldl_scan_self B o_self
              (foldl (scan_other A) {| isNewer := false; isOlder := false |} o_other))
    as [-> ->].
  destruct (foldl_scan_other A o_other {| isNewer := false; isOlder := false |})
    as [-> ->]. simpl.
  split.
  - rewrite orb_true_iff, !existsb_elem_of. split.
    + intros [([n b] & Hin & Hp) | ([n a] & Hin & Hp)].
      * apply Ho, elem_of_map_to_list in Hin.
        unfold newer_at in Hp; simpl in Hp.
        destruct (Entries A !! n) as [a|] eqn:Ha; [|done].
        exists n, a. rewrite Hin. split; [done|lia].
      * apply Hs, elem_of_map_to_list in Hin.
        unfold absent_in in Hp; simpl in Hp.
        exists n, a. split; [done|].
        by destruct (Entries B !! n).
    + intros (n & a & Ha & Hb).
      destruct (Entries B !! n) as [b|] eqn:HB.
      * left. exists (n, b). split; [by apply Ho, elem_of_map_to_list|].
        unfold newer_at; simpl. rewrite Ha. lia.
      * right. exists (n, a). split; [by apply Hs, elem_of_map_to_list|].
        unfold absent_in; simpl. by rewrite HB.
  - rewrite existsb_elem_of. split.
    + intros ([n b] & Hin & Hp).
      apply Ho, elem_of_map_to_list in Hin.
      unfold older_at in Hp; simpl in Hp.
      exists n, b. split; [done|].
      destruct (Entries A !! n); [lia|done].
    + intros (n & b & Hb & Ha).
      exists (n, b). split; [by apply Ho, elem_of_map_to_list|].
      unfold older_at; simpl.
      destruct (Entries A !! n); [lia|done].
Qed.

Lemma Compare_flags A B :
  ∃ fl, Compare A B = verdict fl ∧
        (isNewer fl = true ↔ ahead A B) ∧
        (isOlder fl = true ↔ ahead B A).
Proof. by apply Compare_along_flags. Qed.

(** The result does not depend on the order in which Go happens to range
    over the two maps. *)
Lemma Compare_order_irrelevant A B (o_other o_self : list (string * ClockEntry)) :
  o_other ≡ₚ map_to_list (Entries B) →
  o_self ≡ₚ map_to_list (Entries A) →
  Compare_along A B o_other o_self = Compare A B.
Proof.
  intros Ho Hs.
  destruct (Compare_along_flags A B o_other o_self) as (fl & -> & Hn & Ho').
  { intros kv. by rewrite Ho. }
  { intros kv. by rewrite Hs. }
  destruct (Compare_flags A B) as (fl' & -> & Hn' & Ho'').
  unfold verdict.
  assert (isNewer fl = isNewer fl') as ->.
  { apply eq_true_iff_eq. by rewrite Hn, Hn'. }
  assert (isOlder fl = isOlder fl') as ->.
  { apply eq_true_iff_eq. by rewrite Ho', Ho''. }
  done.
Qed.

Lemma Compare_NEWER A B : Compare A B = "NEWER" ↔ ahead A B ∧ ¬ ahead B A.
Proof.
  destruct (Compare_flags A B) as (fl & -> & <- & <-).
  unfold verdict. destruct (isNewer fl), (isOlder fl); simpl; flag_cases.
Qed.

Lemma Compare_OLDER A B : Compare A B = "OLDER" ↔ ahead B A ∧ ¬ ahead A B.
Proof.
  destruct (Compare_flags A B) as (fl & -> & <- & <-).
  unfold verdict. destruct (isNewer fl), (isOlder fl); simpl; flag_cases.
Qed.

Lemma Compare_EQUAL A B : Compare A B = "EQUAL" ↔ ¬ ahead A B ∧ ¬ ahead B A.
Proof.
  destruct (Compare_flags A B) as (fl & -> & <- & <-).
  unfold verdict. destruct (isNewer fl), (isOlder fl); simpl; flag_cases.
Qed.

Lemma Compare_CONCURRENT A B : Compare A B = "CONCURRENT" ↔ ahead A B ∧ ahead B A.
Proof.
  destruct (Compare_flags A B) as (fl & -> & <- & <-).
  unfold verdict. destruct (isNewer fl), (isOlder fl); simpl; flag_cases.
Qed.

(** A clock is never ahead of itself: [A.Compare(A)] is EQUAL. *)
Lemma Compare_refl A : Compare A A = "EQUAL".
Proof.
  apply Compare_EQUAL.
  split; intros (n & a & Ha & Hcmp); rewrite Ha in Hcmp; lia.
Qed.

Lemma ahead_dec A B : ahead A B ∨ ¬ ahead A B.
Proof.
  destruct (Compare_flags A B) as (fl & _ & <- & _).
  destruct (isNewer fl); [by left | by right].
Qed.

End CompareLoops.

(* ===================================================================== *)
(** * [Compare] against the ordering of the design document               *)
(* ===================================================================== *)

Section CompareSpec.

Implicit Types (A B : VectorClock).

Lemma spec_equal_iff A B :
  counters_positive A → counters_positive B →
  spec_equal A B ↔ ¬ ahead A B ∧ ¬ ahead B A.
Proof.
  intros HA HB. unfold spec_equal, present, counter_of, ahead. split.
  - intros Heq. split; intros (n & e & He & Hcmp).
    + specialize (Heq n (or_introl (ex_intro _ e He))). rewrite He in Heq.
      destruct (Entries B !! n); [lia|]. specialize (HA n e He). lia.
    + specialize (Heq n (or_intror (ex_intro _ e He))). rewrite He in Heq.
      destruct (Entries A !! n); [lia|]. specialize (HB n e He). lia.
  - intros [HnA HnB] n _.
    destruct (Entries A !! n) as [a|] eqn:Ha, (Entries B !! n) as [b|] eqn:Hb.
    + destruct (Z.lt_trichotomy (Counter a) (Counter b)) as [Hlt|[Heq|Hgt]];
        [|done|].
      * exfalso. apply HnB. exists n, b. rewrite Ha. split; [done|lia].
      * exfalso. apply HnA. exists n, a. rewrite Hb. split; [done|lia].
    + exfalso. apply HnA. exists n, a. by rewrite Hb.
    + exfalso. apply HnB. exists n, b. by rewrite Ha.
    + done.
Qed.

Lemma spec_newer_iff A B :
  counters_positive A → counters_positive B →
  spec_newer A B ↔ ahead A B ∧ ¬ ahead B A.
Proof.
  intros HA HB. unfold spec_newer, counter_of, ahead. split.
  - intros [Hge (n & Hgt)]. split.
    + destruct (Entries A !! n) as [a|] eqn:Ha.
      * exists n, a. split; [done|]. by destruct (Entries B !! n).
      * destruct (Entries B !! n) as [b|] eqn:Hb; [|lia].
        specialize (HB n b Hb). lia.
    + intros (m & b & Hb & Hcmp). specialize (Hge m). rewrite Hb in Hge.
      destruct (Entries A !! m); [lia|]. specialize (HB m b Hb). lia.
  - intros [(n & a & Ha & Hcmp) Hno]. split.
    + intros m.
      destruct (Entries A !! m) as [a'|] eqn:Ha', (Entries B !! m) as [b'|] eqn:Hb'.
      * destruct (Z_lt_ge_dec (Counter a') (Counter b')) as [Hlt|Hge]; [|done].
        exfalso. apply Hno. exists m, b'. rewrite Ha'. split; [done|lia].
      * specialize (HA m a' Ha'). lia.
      * exfalso. apply Hno. exists m, b'. by rewrite Ha'.
      * lia.
    + exists n. rewrite Ha.
      destruct (Entries B !! n); [done|]. specialize (HA n a Ha). lia.
Qed.

(** On clocks whose stored counters are all at least one, [Compare]
    classifies as the design document's definitions do. *)
Lemma Compare_classifies A B :
  counters_positive A → counters_positive B → classifies A B.
Proof.
  intros HA HB.
  pose proof (spec_equal_iff A B HA HB) as He.
  pose proof (spec_newer_iff A B HA HB) as Hn.
  pose proof (spec_newer_iff B A HB HA) as Ho.
  unfold classifies, spec_concurrent, spec_older.
  rewrite Compare_EQUAL, Compare_NEWER, Compare_OLDER, Compare_CONCURRENT.
  rewrite He, Hn, Ho.
  destruct (ahead_dec A B), (ahead_dec B A); tauto.
Qed.

End CompareSpec.

(** C1, as amended. For every pair of vector clocks whose stored counters
    are all at least 1 (every clock built by NewVectorClock and Update
    without wrap-around is one), Compare classifies them exactly per the
    absence-is-zero definitions: EQUAL iff the counters match at every node
    present in either vector, NEWER iff every counter of A is >= B's and
    one is strictly greater, OLDER symmetrically, CONCURRENT iff the
    vectors differ and neither strict order holds. *)
Theorem C1_Compare_classifies_positive_counters (A B : VectorClock) :
  counters_positive A → counters_positive B →
  (Compare A B = "EQUAL" ↔ spec_equal A B) ∧
  (Compare A B = "NEWER" ↔ spec_newer A B) ∧
  (Compare A B = "OLDER" ↔ spec_older A B) ∧
  (Compare A B = "CONCURRENT" ↔ spec_concurrent A B).
Proof. apply Compare_classifies. Qed.

Lemma counters_positive_decide (vc : VectorClock) :
  bool_decide (map_Forall (λ _ e, 1 <= Counter e) (Entries vc)) = true →
  counters_positive vc.
Proof. intros H. apply bool_decide_eq_true_1 in H. exact H. Qed.

Lemma C1_Compare_classifies_witness :
  counters_positive clock_n1_n1 ∧ counters_positive clock_n1_n2 ∧
  (Compare clock_n1_n1 clock_n1_n2 = "CONCURRENT" ↔
   spec_concurrent clock_n1_n1 clock_n1_n2).
Proof.
  assert (counters_positive clock_n1_n1) as H1
    by (apply counters_positive_decide; vm_compute; reflexivity).
  assert (counters_positive clock_n1_n2) as H2
    by (apply counters_positive_decide; vm_compute; reflexivity).
  split; [exact H1|]. split; [exact H2|].
  exact (proj2 (proj2 (proj2
    (C1_Compare_classifies_positive_counters clock_n1_n1 clock_n1_n2 H1 H2)))).
Defined.

(** C1, as stated, fails: a clock that stores counter 0 for a node has the
    same counters as the empty clock under the absence-is-zero reading, yet
    Compare answers NEWER, because a stored entry always outranks a missing
    one. *)
Lemma C1_counterexample_zero_counter :
  spec_equal zero_entry_clock NewVectorClock ∧
  Compare zero_entry_clock NewVectorClock = "NEWER" ∧
  ¬ classifies zero_entry_clock NewVectorClock.
Proof.
  assert (spec_equal zero_entry_clock NewVectorClock) as Heq.
  { intros n _. unfold counter_of, zero_entry_clock, NewVectorClock; simpl.
    rewrite lookup_empty.
    destruct (decide (n = "a")) as [->|Hne].
    - by rewrite lookup_singleton_eq.
    - by rewrite lookup_singleton_ne. }
  assert (Compare zero_entry_clock NewVectorClock = "NEWER") as Hcmp
    by (vm_compute; reflexivity).
  split; [exact Heq|]. split; [exact Hcmp|].
  intros (He & _). apply He in Heq. rewrite Hcmp in Heq. discriminate.
Qed.

(* ===================================================================== *)
(** * Mirror symmetry of [Compare]                                        *)
(* ===================================================================== *)

(** C3. For all vector clocks A and B, A.Compare(B) and B.Compare(A) are
    mirror images: NEWER on one side iff OLDER on the other, EQUAL iff
    EQUAL, CONCURRENT iff CONCURRENT. *)
Theorem C3_Compare_mirror (A B : VectorClock) :
  (Compare A B = "NEWER" ↔ Compare B A = "OLDER") ∧
  (Compare A B = "OLDER" ↔ Compare B A = "NEWER") ∧
  (Compare A B = "EQUAL" ↔ Compare B A = "EQUAL") ∧
  (Compare A B = "CONCURRENT" ↔ Compare B A = "CONCURRENT").
Proof.
  rewrite !Compare_NEWER, !Compare_OLDER, !Compare_EQUAL, !Compare_CONCURRENT.
  tauto.
Qed.

(* ===================================================================== *)
(** * [Update]                                                            *)
(* ===================================================================== *)

Section UpdateFacts.

Implicit Types (vc A C : VectorClock) (n m : string) (t : Timestamp).
Implicit Types (evs : list (string * Timestamp)).

Lemma lookup_Update_ne vc n t m :
  m ≠ n → Entries (Update vc n t) !! m = Entries vc !! m.
Proof.
  intros Hne. unfold Update.
  destruct (Entries vc !! n); simpl; by rewrite lookup_insert_ne.
Qed.

Lemma lookup_Update_eq vc n t :
  Entries (Update vc n t) !! n =
  Some match Entries vc !! n with
       | Some entry => {| NodeID := NodeID entry;
                          Counter := GoInt.incr (Counter entry);
                          Updated := t |}
       | None => {| NodeID := n; Counter := 1; Updated := t |}
       end.
Proof.
  unfold Update. destruct (Entries vc !! n); simpl; by rewrite lookup_insert_eq.
Qed.

Lemma counter_of_Update_ne vc n t m :
  m ≠ n → counter_of (Update vc n t) m = counter_of vc m.
Proof. intros Hne. unfold counter_of. by rewrite lookup_Update_ne. Qed.

Lemma counter_of_Update_eq vc n t :
  GoInt.MinInt <= counter_of vc n < GoInt.MaxInt →
  counter_of (Update vc n t) n = counter_of vc n + 1.
Proof.
  unfold counter_of. rewrite lookup_Update_eq.
  destruct (Entries vc !! n); simpl; [|done].
  apply incr_no_overflow.
Qed.

Lemma updates_of_cons_eq n t evs :
  updates_of n ((n, t) :: evs) = S (updates_of n evs).
Proof. unfold updates_of. rewrite filter_cons_True; done. Qed.

Lemma updates_of_cons_ne n m t evs :
  m ≠ n → updates_of n ((m, t) :: evs) = updates_of n evs.
Proof. intros Hne. unfold updates_of. rewrite filter_cons_False; done. Qed.

Lemma updates_of_pos n evs : n ∈ evs.*1 → (0 < updates_of n evs)%nat.
Proof.
  induction evs as [|[m t] evs IH]; simpl.
  - by intros ?%elem_of_nil.
  - intros [->|Hin]%elem_of_cons.
    + rewrite updates_of_cons_eq. lia.
    + destruct (decide (m = n)) as [->|Hne].
      * rewrite updates_of_cons_eq. lia.
      * rewrite updates_of_cons_ne by done. auto.
Qed.

Lemma lookup_Updates_notin evs C n :
  n ∉ evs.*1 → Entries (Updates C evs) !! n = Entries C !! n.
Proof.
  revert C. induction evs as [|[m t] evs IH]; intros C Hnot; [done|].
  simpl in Hnot. apply not_elem_of_cons in Hnot as [Hne Hnot].
  unfold Updates in *. simpl. rewrite IH by done.
  by apply lookup_Update_ne.
Qed.

Lemma present_Update vc n t m :
  is_Some (Entries vc !! m) → is_Some (Entries (Update vc n t) !! m).
Proof.
  intros H. destruct (decide (m = n)) as [->|Hne].
  - rewrite lookup_Update_eq. eauto.
  - by rewrite lookup_Update_ne.
Qed.

Lemma present_Updates evs C n :
  is_Some (Entries C !! n) ∨ n ∈ evs.*1 → is_Some (Entries (Updates C evs) !! n).
Proof.
  revert C. induction evs as [|[m t] evs IH]; intros C H.
  - destruct H as [H|H%elem_of_nil]; done.
  - unfold Updates in *. simpl. apply IH.
    destruct H as [H|[->|H]%elem_of_cons]; [| |by right].
    + left. by apply present_Update.
    + left. simpl. rewrite lookup_Update_eq. eauto.
Qed.

(** Without wrap-around, a node's counter grows by the number of updates
    it received (an absent node counting from zero). *)
Lemma counter_of_Updates evs C n :
  GoInt.MinInt <= counter_of C n →
  counter_of C n + Z.of_nat (updates_of n evs) <= GoInt.MaxInt →
  counter_of (Updates C evs) n = counter_of C n + Z.of_nat (updates_of n evs).
Proof.
  revert C. induction evs as [|[m t] evs IH]; intros C Hlo Hhi.
  - unfold Updates, updates_of. simpl. lia.
  - change (Updates C ((m, t) :: evs)) with (Updates (Update C m t) evs).
    destruct (decide (m = n)) as [->|Hne].
    + rewrite updates_of_cons_eq in *.
      assert (counter_of (Update C n t) n = counter_of C n + 1) as Hc
        by (apply counter_of_Update_eq; lia).
      rewrite IH; rewrite Hc; lia.
    + rewrite updates_of_cons_ne in * by done.
      assert (counter_of (Update C m t) n = counter_of C n) as Hc
        by (by apply counter_of_Update_ne).
      rewrite IH; rewrite Hc; lia.
Qed.

(** A clock that received updates for a node is ahead of a copy of the
    same ancestor that received none for it. *)
Lemma ahead_Updates C evs1 evs2 n :
  n ∈ evs1.*1 → n ∉ evs2.*1 →
  GoInt.MinInt <= counter_of C n →
  counter_of C n + Z.of_nat (updates_of n evs1) <= GoInt.MaxInt →
  ahead (Updates C evs1) (Updates C evs2).
Proof.
  intros Hin Hnot Hlo Hhi.
  destruct (present_Updates evs1 C n (or_intror Hin)) as [a Ha].
  exists n, a. split; [done|].
  rewrite lookup_Updates_notin by done.
  pose proof (counter_of_Updates evs1 C n Hlo Hhi) as Hc.
  pose proof (updates_of_pos n evs1 Hin) as Hpos.
  unfold counter_of in Hc. rewrite Ha in Hc.
  destruct (Entries C !! n); [lia|done].
Qed.

(** Clocks grown from the empty one by [Update] store counters of at least
    one, as long as the number of updates stays within [int]. *)
Lemma counters_positive_Updates evs :
  Z.of_nat (length evs) <= GoInt.MaxInt →
  counters_positive (Updates NewVectorClock evs).
Proof.
  intros Hlen n e He.
  destruct (decide (n ∈ evs.*1)) as [Hin|Hnot].
  - pose proof (updates_of_pos n evs Hin) as Hpos.
    assert (updates_of n evs ≤ length evs)%nat as Hle
      by apply length_filter.
    assert (counter_of NewVectorClock n = 0) as H0.
    { unfold counter_of, NewVectorClock; simpl. by rewrite lookup_empty. }
    pose proof (counter_of_Updates evs NewVectorClock n) as Hc.
    rewrite H0 in Hc. unfold counter_of in Hc. rewrite He in Hc.
    rewrite Hc; [lia|done|lia].
  - rewrite lookup_Updates_notin in He by done.
    unfold NewVectorClock in He; simpl in He. by rewrite lookup_empty in He.
Qed.

End UpdateFacts.

(** On a clock whose map is allocated, the method does what [Update]
    does, and does not panic. *)
Lemma Update_go_allocated (vc : VectorClock) (nodeID : string) (now : Timestamp) :
  Update_go (allocated vc) nodeID now = Some (allocated (Update vc nodeID now)).
Proof.
  unfold Update_go, allocated, Update. simpl.
  by destruct (Entries vc !! nodeID).
Qed.

(** C6, as amended. For every vector clock whose Entries map is allocated
    (every clock NewVectorClock makes) and every node ID whose stored
    counter, if there is one, is below MaxInt, Update does not fail and has
    exactly this effect: an existing entry for the node keeps its NodeID and
    has its counter incremented by one, a missing entry is created with
    counter 1; the updated clock is all the call produces, and the entry of
    no other node is changed. *)
Theorem C6_Update_effect_allocated_below_MaxInt
    (vc : VectorClock) (nodeID : string) (now : Timestamp) :
  (∀ entry, Entries vc !! nodeID = Some entry →
            GoInt.MinInt <= Counter entry < GoInt.MaxInt) →
  Update_go (allocated vc) nodeID now = Some (allocated (Update vc nodeID now)) ∧
  match Entries vc !! nodeID with
  | Some entry =>
      Entries (Update vc nodeID now) !! nodeID =
        Some {| NodeID := NodeID entry;
                Counter := Counter entry + 1;
                Updated := now |}
  | None =>
      Entries (Update vc nodeID now) !! nodeID =
        Some {| NodeID := nodeID; Counter := 1; Updated := now |}
  end ∧
  (∀ m, m ≠ nodeID → Entries (Update vc nodeID now) !! m = Entries vc !! m) ∧
  dom (Entries (Update vc nodeID now)) = {[ nodeID ]} ∪ dom (Entries vc).
Proof.
  intros Hrange. split; [apply Update_go_allocated|]. split; [|split].
  - pose proof (lookup_Update_eq vc nodeID now) as H.
    destruct (Entries vc !! nodeID) as [entry|]; [|done].
    rewrite H. by rewrite incr_no_overflow by (by apply Hrange).
  - intros m Hne. by apply lookup_Update_ne.
  - unfold Update. destruct (Entries vc !! nodeID); simpl; by rewrite dom_insert_L.
Qed.

Lemma C6_Update_effect_witness :
  (∀ entry, Entries clock_n1_n2 !! "n1" = Some entry →
            GoInt.MinInt <= Counter entry < GoInt.MaxInt) ∧
  Update_go (allocated clock_n1_n2) "n1" 50 =
    Some (allocated (Update clock_n1_n2 "n1" 50)) ∧
  Entries (Update clock_n1_n2 "n1" 50) !! "n1" =
    Some {| NodeID := "n1"; Counter := 2; Updated := 50 |} ∧
  Entries (Update clock_n1_n2 "n1" 50) !! "n2" = Entries clock_n1_n2 !! "n2".
Proof.
  assert (∀ entry, Entries clock_n1_n2 !! "n1" = Some entry →
                   GoInt.MinInt <= Counter entry < GoInt.MaxInt) as Hr.
  { intros entry He. vm_compute in He. injection He as <-.
    vm_compute. split; [discriminate|reflexivity]. }
  destruct (C6_Update_effect_allocated_below_MaxInt clock_n1_n2 "n1" 50 Hr)
    as (Hgo & Hentry & Hframe & _).
  split; [exact Hr|]. split; [exact Hgo|].
  split; [exact Hentry|]. apply Hframe. discriminate.
Defined.

(** C6, as stated, fails twice. On the zero value of the type, whose map is
    nil, Update panics at the assignment of the new entry. And on a clock
    that stores MaxInt for the node, the counter after Update is MinInt,
    not MaxInt plus one. *)
Lemma C6_counterexample_nil_map_and_MaxInt :
  Update_go zero_VectorClock "a" 1 = None ∧
  Update_go (allocated max_clock) "a" 1 =
    Some (allocated (Update max_clock "a" 1)) ∧
  Entries (Update max_clock "a" 1) !! "a" =
    Some {| NodeID := "a"; Counter := GoInt.MinInt; Updated := 1 |} ∧
  GoInt.MinInt ≠ GoInt.MaxInt + 1.
Proof.
  split; [reflexivity|]. split; [apply Update_go_allocated|].
  split; [vm_compute; reflexivity|]. discriminate.
Qed.

(** C5, as amended. For every vector clock A and node ID n whose counter
    in A (zero when absent) is at most MaxInt - 2, the clock obtained from
    A by two Updates of n compares as NEWER than A: the counter of n has
    grown by two and every other entry is unchanged. *)
Theorem C5_Update_twice_NEWER (A : VectorClock) (n : string) (t1 t2 : Timestamp) :
  GoInt.MinInt <= counter_of A n <= GoInt.MaxInt - 2 →
  Compare (Update (Update A n t1) n t2) A = "NEWER" ∧
  counter_of (Update (Update A n t1) n t2) n = counter_of A n + 2 ∧
  (∀ m, m ≠ n → Entries (Update (Update A n t1) n t2) !! m = Entries A !! m).
Proof.
  intros Hr.
  assert (counter_of (Update (Update A n t1) n t2) n = counter_of A n + 2) as Hc.
  { pose proof (counter_of_Update_eq A n t1 ltac:(lia)) as H1.
    rewrite counter_of_Update_eq by lia. lia. }
  assert (∀ m, m ≠ n →
    Entries (Update (Update A n t1) n t2) !! m = Entries A !! m) as Hframe.
  { intros m Hne. by rewrite !lookup_Update_ne. }
  split; [|done].
  apply Compare_NEWER. split.
  - destruct (present_Update (Update A n t1) n t2 n) as [a Ha].
    { rewrite lookup_Update_eq. eauto. }
    exists n, a. split; [done|].
    unfold counter_of in Hc. rewrite Ha in Hc.
    destruct (Entries A !! n); [lia|done].
  - intros (m & a & Ha & Hcmp).
    destruct (decide (m = n)) as [->|Hne].
    + destruct (present_Update (Update A n t1) n t2 n) as [b Hb].
      { rewrite lookup_Update_eq. eauto. }
      unfold counter_of in Hc. rewrite Ha, Hb in Hc. rewrite Hb in Hcmp. lia.
    + rewrite Hframe, Ha in Hcmp by done. lia.
Qed.

Lemma C5_Update_twice_witness :
  GoInt.MinInt <= counter_of clock_n1_n2 "n1" <= GoInt.MaxInt - 2 ∧
  Compare (Update (Update clock_n1_n2 "n1" 30) "n1" 40) clock_n1_n2 = "NEWER".
Proof.
  assert (GoInt.MinInt <= counter_of clock_n1_n2 "n1" <= GoInt.MaxInt - 2) as H
    by (vm_compute; split; discriminate).
  split; [exact H|].
  exact (proj1 (C5_Update_twice_NEWER clock_n1_n2 "n1" 30 40 H)).
Defined.

(** C5, as stated, fails: from counter MaxInt - 1 the second increment
    wraps around to MinInt, and the twice-updated clock compares as OLDER
    than the original. *)
Lemma C5_counterexample_wrap_around :
  counter_of (Update (Update near_max_clock "a" 1) "a" 2) "a" = GoInt.MinInt ∧
  Compare (Update (Update near_max_clock "a" 1) "a" 2) near_max_clock = "OLDER" ∧
  Compare (Update (Update near_max_clock "a" 1) "a" 2) near_max_clock ≠ "NEWER".
Proof.
  assert (Compare (Update (Update near_max_clock "a" 1) "a" 2) near_max_clock
          = "OLDER") as H by (vm_compute; reflexivity).
  split; [vm_compute; reflexivity|]. split; [exact H|].
  rewrite H. discriminate.
Qed.

(** C4, as amended. For every common ancestor C and every two non-empty,
    disjoint sets of node IDs, if copy A of C receives at least one Update
    for each node of the first set only, copy B at least one for each node
    of the second set only, and no updated counter leaves the range of int
    (none wraps around), then A.Compare(B) returns CONCURRENT. *)
Theorem C4_disjoint_updates_CONCURRENT
    (C : VectorClock) (S1 S2 : gset string) (evs1 evs2 : list (string * Timestamp)) :
  S1 ≠ ∅ → S2 ≠ ∅ → S1 ## S2 →
  (∀ n, n ∈ evs1.*1 ↔ n ∈ S1) →
  (∀ n, n ∈ evs2.*1 ↔ n ∈ S2) →
  no_overflow C evs1 → no_overflow C evs2 →
  Compare (Updates C evs1) (Updates C evs2) = "CONCURRENT".
Proof.
  intros Hne1 Hne2 Hdisj H1 H2 Ho1 Ho2.
  apply set_choose_L in Hne1 as [n1 Hn1].
  apply set_choose_L in Hne2 as [n2 Hn2].
  apply Compare_CONCURRENT. split.
  - apply (ahead_Updates C evs1 evs2 n1).
    + by apply H1.
    + rewrite H2. intros Hin. by apply (Hdisj n1).
    + apply Ho1. by apply H1.
    + apply Ho1. by apply H1.
  - apply (ahead_Updates C evs2 evs1 n2).
    + by apply H2.
    + rewrite H1. intros Hin. by apply (Hdisj n2).
    + apply Ho2. by apply H2.
    + apply Ho2. by apply H2.
Qed.

Lemma no_overflow_decide (C : VectorClock) (evs : list (string * Timestamp)) :
  forallb (λ n, (GoInt.MinInt <=? counter_of C n) &&
                (counter_of C n + Z.of_nat (updates_of n evs) <=? GoInt.MaxInt))
          evs.*1 = true →
  no_overflow C evs.
Proof.
  intros H n Hin. rewrite forallb_forall in H.
  specialize (H n (proj1 (list_elem_of_In _ _) Hin)).
  apply andb_true_iff in H as [Hlo Hhi]. lia.
Qed.

Lemma C4_disjoint_updates_witness :
  let evs1 := [("n1", 30); ("n3", 31); ("n1", 32)] in
  let evs2 := [("n2", 40)] in
  Compare (Updates clock_n1_n2 evs1) (Updates clock_n1_n2 evs2) = "CONCURRENT".
Proof.
  intros evs1 evs2.
  apply (C4_disjoint_updates_CONCURRENT clock_n1_n2 {[ "n1"; "n3" ]} {[ "n2" ]}).
  - apply (bool_decide_unpack _). vm_compute. exact I.
  - apply (bool_decide_unpack _). vm_compute. exact I.
  - apply (bool_decide_unpack _). vm_compute. exact I.
  - intros n. unfold evs1. simpl.
    rewrite elem_of_union, !elem_of_singleton, !elem_of_cons, elem_of_nil. tauto.
  - intros n. unfold evs2. simpl.
    rewrite !elem_of_singleton, !elem_of_cons, elem_of_nil. tauto.
  - apply no_overflow_decide. vm_compute. reflexivity.
  - apply no_overflow_decide. vm_compute. reflexivity.
Defined.

(** C4, as stated, fails: from an ancestor that stores MaxInt for node a,
    the copy updated on a wraps to MinInt, the copy updated on b gains an
    entry for b, and the first compares as OLDER than the second. *)
Lemma C4_counterexample_wrap_around :
  let A := Updates max_clock [("a", 1)] in
  let B := Updates max_clock [("b", 1)] in
  ({[ "a" ]} : gset string) ## {[ "b" ]} ∧
  Compare A B = "OLDER" ∧ Compare A B ≠ "CONCURRENT".
Proof.
  intros A B.
  assert (Compare A B = "OLDER") as H by (vm_compute; reflexivity).
  split; [apply (bool_decide_unpack _); vm_compute; exact I|].
  split; [exact H|]. rewrite H. discriminate.
Qed.

(* ===================================================================== *)
(** * The tokenizer                                                       *)
(* ===================================================================== *)

Section Tokenizer.

Implicit Types (s t tok q body line : string) (st : Scanner).
Implicit Types (pre post toks : list string).

Lemma append_cons c s t : String c s +:+ t = String c (s +:+ t).
Proof. reflexivity. Qed.

Lemma append_nil_l s : "" +:+ s = s.
Proof. reflexivity. Qed.

Lemma append_assoc s t u : (s +:+ t) +:+ u = s +:+ (t +:+ u).
Proof.
  induction s as [|c s IH]; [done|].
  by rewrite !append_cons, IH.
Qed.

Lemma substring_0_0 s : substring 0 0 s = "".
Proof. by destruct s. Qed.

Lemma substring_0_length s : substring 0 (String.length s) s = s.
Proof. induction s as [|c s IH]; simpl; [done|]. by rewrite IH. Qed.

Lemma HasPrefix_cons c s : strings.HasPrefix (String c s) (String c "") = true.
Proof.
  unfold strings.HasPrefix. simpl. rewrite substring_0_0.
  by rewrite Ascii.eqb_refl.
Qed.

Lemma TrimPrefix_cons c s : strings.TrimPrefix (String c s) (String c "") = s.
Proof.
  unfold strings.TrimPrefix. rewrite HasPrefix_cons. simpl.
  rewrite Nat.sub_0_r. apply substring_0_length.
Qed.

Lemma begins_with_quote_first tok :
  begins_with_quote tok = true →
  (string_of_first tok = squote ∨ string_of_first tok = dquote) ∧
  string_of_first tok ≠ "".
Proof.
  unfold begins_with_quote, strings.HasPrefix, squote, dquote.
  destruct tok as [|c tok]; simpl; [done|].
  rewrite substring_0_0.
  destruct (Ascii.eqb_spec c "039") as [E1|_], (Ascii.eqb_spec c "034") as [E2|_];
    subst; simpl; intros H; try discriminate H; split; auto; discriminate.
Qed.

Lemma quote_prefix_first tok q :
  q = squote ∨ q = dquote →
  strings.HasPrefix tok q = true →
  begins_with_quote tok = true ∧ string_of_first tok = q.
Proof.
  unfold begins_with_quote.
  intros [-> | ->] Hp; rewrite Hp, ?orb_true_r; (split; [done|]);
    unfold strings.HasPrefix, squote, dquote in *;
    destruct tok as [|c tok]; simpl in *; try discriminate;
    rewrite substring_0_0 in Hp;
    [destruct (Ascii.eqb_spec c "039") as [->|_]
    |destruct (Ascii.eqb_spec c "034") as [->|_]]; done.
Qed.

(** A token that begins with a quote, read outside a span, opens one. *)
Lemma SafeSplit_step_open st tok :
  inquote st = "" → begins_with_quote tok = true →
  SafeSplit_step st tok =
    {| result := result st;
       inquote := string_of_first tok;
       block := strings.TrimPrefix tok (string_of_first tok) +:+ " " |}.
Proof.
  unfold SafeSplit_step, begins_with_quote. by intros -> ->.
Qed.

(** Inside a span that no token of [toks] closes, the loop only buffers. *)
Lemma SafeSplit_loop_in_span toks st :
  inquote st ≠ "" →
  (∀ t, t ∈ toks → strings.HasSuffix t (inquote st) = false) →
  SafeSplit_loop st toks =
    {| result := result st;
       inquote := inquote st;
       block := block st +:+ buffered toks |}.
Proof.
  revert st. induction toks as [|t toks IH]; intros st Hq Hopen.
  - unfold SafeSplit_loop, buffered; simpl.
    destruct st as [r i b]; simpl. f_equal.
    clear. induction b as [|c b IHb]; [done|]. by rewrite append_cons, <- IHb.
  - unfold SafeSplit_loop in *. cbn [foldl].
    assert (SafeSplit_step st t =
            {| result := result st; inquote := inquote st;
               block := block st +:+ t +:+ " " |}) as Hstep.
    { unfold SafeSplit_step.
      destruct (String.eqb_spec (inquote st) "") as [E|_]; [done|].
      rewrite (Hopen t) by (left). done. }
    rewrite Hstep, IH; simpl; [|done|].
    + f_equal. unfold buffered. cbn [foldr]. by rewrite !append_assoc.
    + intros t' Ht'. apply Hopen. by right.
Qed.

Lemma SafeSplit_loop_app st pre post :
  SafeSplit_loop st (pre ++ post) = SafeSplit_loop (SafeSplit_loop st pre) post.
Proof. unfold SafeSplit_loop. apply foldl_app. Qed.

(** A span opened by [tok] after [pre] and closed by no token of [post]
    leaves the result where it was before [tok]; the words of the span
    are in [block] when the loop ends. *)
Lemma SafeSplit_loop_unterminated pre tok post :
  inquote (SafeSplit_loop scanner0 pre) = "" →
  begins_with_quote tok = true →
  (∀ t, t ∈ post → strings.HasSuffix t (string_of_first tok) = false) →
  SafeSplit_loop scanner0 (pre ++ tok :: post) =
    {| result := result (SafeSplit_loop scanner0 pre);
       inquote := string_of_first tok;
       block := buffered (strings.TrimPrefix tok (string_of_first tok) :: post) |}.
Proof.
  intros Hpre Htok Hpost.
  rewrite SafeSplit_loop_app.
  change (SafeSplit_loop ?st (tok :: post))
    with (SafeSplit_loop (SafeSplit_step st tok) post).
  rewrite SafeSplit_step_open by done.
  rewrite SafeSplit_loop_in_span; simpl.
  - by rewrite append_assoc.
  - by apply begins_with_quote_first.
  - done.
Qed.

End Tokenizer.

(** C7. The tokenizer maps the line made of put, the double-quoted words
    hello world, and value to the three tokens put, hello world, value
    (quotes stripped, the quoted words joined by a space), and the unquoted
    line [get key1] to get, key1. *)
Theorem C7_SafeSplit_examples :
  SafeSplit line_put_quoted = ["put"; "hello world"; "value"] ∧
  SafeSplit line_get_key1 = ["get"; "key1"].
Proof. split; vm_compute; reflexivity. Qed.

(** C2, as amended. For every line with a quote-opening token (one that
    begins with a quote character and is read while no span is open) that
    no later token closes, the tokenizer returns, silently and without
    error, exactly the segments completed before that token: the
    unterminated text is gathered in the local buffer only and is not part
    of the result. *)
Theorem C2_unterminated_quote_dropped
    (line : string) (pre : list string) (tok : string) (post : list string) :
  strings.Split line space = pre ++ tok :: post →
  inquote (SafeSplit_loop scanner0 pre) = "" →
  begins_with_quote tok = true →
  (∀ t, t ∈ post → strings.HasSuffix t (string_of_first tok) = false) →
  SafeSplit line = result (SafeSplit_loop scanner0 pre) ∧
  block (SafeSplit_loop scanner0 (strings.Split line space)) =
    buffered (strings.TrimPrefix tok (string_of_first tok) :: post).
Proof.
  intros Hsplit Hpre Htok Hpost. unfold SafeSplit.
  rewrite Hsplit, SafeSplit_loop_unterminated by done. done.
Qed.

Lemma C2_unterminated_quote_witness :
  SafeSplit line_get_open = ["get"] ∧
  block (SafeSplit_loop scanner0 (strings.Split line_get_open space)) = "hi there ".
Proof.
  apply (C2_unterminated_quote_dropped line_get_open
           ["get"] (dquote +:+ "hi") ["there"]).
  - vm_compute; reflexivity.
  - vm_compute; reflexivity.
  - vm_compute; reflexivity.
  - intros t Ht. apply list_elem_of_singleton in Ht as ->. vm_compute; reflexivity.
Defined.

(** C2, as stated, fails: on the line made of get, a double quote directly
    followed by hi, and there, the span opened by the second token is never
    closed, the result is the single segment get, and that last segment
    does not hold the text hi there. *)
Lemma C2_counterexample_text_not_kept :
  SafeSplit line_get_open = ["get"] ∧
  ¬ in_last_segment "hi there" (SafeSplit line_get_open) ∧
  ¬ unterminated_kept line_get_open.
Proof.
  assert (SafeSplit line_get_open = ["get"]) as Hres by (vm_compute; reflexivity).
  assert (¬ in_last_segment "hi there" (SafeSplit line_get_open)) as Hnot.
  { rewrite Hres. intros (seg & Hlast & Hc).
    injection Hlast as <-. vm_compute in Hc. discriminate. }
  split; [exact Hres|]. split; [exact Hnot|].
  intros Hclaim. apply Hnot.
  apply (Hclaim ["get"] (dquote +:+ "hi") ["there"]).
  - vm_compute; reflexivity.
  - vm_compute; reflexivity.
  - vm_compute; reflexivity.
  - intros t Ht. apply list_elem_of_singleton in Ht as ->. vm_compute; reflexivity.
Qed.

(** C10, as amended. For every line in which a token of length at least two
    that begins and ends with the same quote character is read while no
    quoted span is open, the tokenizer treats the token as opening a span
    and not as closing it (the quote is pending afterwards, nothing is
    appended to the result, and the token without its first character is
    what the buffer holds); if no later token ends with that quote
    character, the quoted text is absent from the result, which is what had
    been produced before the token. *)
Theorem C10_quoted_token_opens_span
    (line : string) (pre : list string) (tok : string) (post : list string)
    (q : string) :
  strings.Split line space = pre ++ tok :: post →
  inquote (SafeSplit_loop scanner0 pre) = "" →
  q = squote ∨ q = dquote →
  (2 <= String.length tok)%nat →
  strings.HasPrefix tok q = true →
  strings.HasSuffix tok q = true →
  opens_only pre tok q ∧
  block (SafeSplit_loop scanner0 (pre ++ [tok])) = strings.TrimPrefix tok q +:+ " " ∧
  ((∀ t, t ∈ post → strings.HasSuffix t q = false) →
   SafeSplit line = result (SafeSplit_loop scanner0 pre)).
Proof.
  intros Hsplit Hpre Hq _ Hp _.
  destruct (quote_prefix_first tok q Hq Hp) as [Hbeg Hfirst].
  assert (SafeSplit_loop scanner0 (pre ++ [tok]) =
          {| result := result (SafeSplit_loop scanner0 pre);
             inquote := q;
             block := strings.TrimPrefix tok q +:+ " " |}) as Hst.
  { rewrite SafeSplit_loop_app.
    change (SafeSplit_loop ?st [?t]) with (SafeSplit_step st t).
    rewrite SafeSplit_step_open by done. by rewrite Hfirst. }
  split; [|split].
  - unfold opens_only. by rewrite Hst.
  - by rewrite Hst.
  - intros Hpost. unfold SafeSplit.
    rewrite Hsplit, SafeSplit_loop_unterminated; [done..|].
    by rewrite Hfirst.
Qed.

Lemma C10_quoted_token_witness :
  SafeSplit line_get_hi = ["get"].
Proof.
  refine (proj2 (proj2
    (C10_quoted_token_opens_span line_get_hi
       ["get"] (dquote +:+ "hi" +:+ dquote) [] dquote _ _ _ _ _ _)) _).
  - vm_compute; reflexivity.
  - vm_compute; reflexivity.
  - right; reflexivity.
  - vm_compute; lia.
  - vm_compute; reflexivity.
  - vm_compute; reflexivity.
  - intros t Ht. by apply elem_of_nil in Ht.
Defined.

(** C10, as stated for every line, fails: on the line of two tokens, a
    double quote followed by a, then hi between double quotes, the second
    token begins and ends with the double quote and no token follows it,
    but it is read inside the span opened by the first token, so it closes
    that span, and its text is part of the single segment returned. *)
Lemma C10_counterexample_inside_span :
  strings.Split line_span_then_quoted space =
    [dquote +:+ "a"; dquote +:+ "hi" +:+ dquote] ∧
  inquote (SafeSplit_loop scanner0 (strings.Split line_span_then_quoted space)) = "" ∧
  SafeSplit line_span_then_quoted = ["a " +:+ dquote +:+ "hi"] ∧
  in_last_segment "hi" (SafeSplit line_span_then_quoted) ∧
  ¬ quoted_token_opens_only line_span_then_quoted.
Proof.
  assert (SafeSplit line_span_then_quoted = ["a " +:+ dquote +:+ "hi"]) as Hres
    by (vm_compute; reflexivity).
  split; [vm_compute; reflexivity|].
  split; [vm_compute; reflexivity|].
  split; [exact Hres|].
  split.
  - exists ("a " +:+ dquote +:+ "hi"). split; vm_compute; reflexivity.
  - intros Hclaim.
    destruct (Hclaim [dquote +:+ "a"] (dquote +:+ "hi" +:+ dquote) [] dquote)
      as [[Hopen _] _].
    + vm_compute; reflexivity.
    + right; reflexivity.
    + vm_compute; lia.
    + vm_compute; reflexivity.
    + vm_compute; reflexivity.
    + vm_compute in Hopen. discriminate.
Qed.

(* ===================================================================== *)
(** * The client                                                          *)
(* ===================================================================== *)

Section ClientFacts.

Variable srv : Remote.

Implicit Types (s : Sys) (key value level : string).

(** With a session, each operation issues exactly one remote call, for its
    own service method and carrying the tier of its direction. *)
Lemma Get_connected key s h :
  client (self s) = Some h →
  wire (Get srv key s).2 =
    wire s ++ [{| ev_session := h; ev_method := GetOp;
                  ev_args := ArgsGet {| get_Level := readLevel (self s);
                                        get_Key := key |} |}] ∧
  self (Get srv key s).2 = self s.
Proof.
  intros Hc. unfold Get. rewrite Hc.
  by destruct (on_Get srv (wire s) _).
Qed.

Lemma Put_connected key value s h :
  client (self s) = Some h →
  wire (Put srv key value s).2 =
    wire s ++ [{| ev_session := h; ev_method := PutOp;
                  ev_args := ArgsPut {| put_Level := writeLevel (self s);
                                        put_Key := key;
                                        put_Value := value |} |}] ∧
  self (Put srv key value s).2 = self s.
Proof.
  intros Hc. unfold Put. rewrite Hc.
  by destruct (on_Put srv (wire s) _).
Qed.

(** A failed dial leaves the client without a session. *)
Lemma Connect_failed s err :
  dial srv (address (self s)) (port (self s)) = inl err →
  (Connect srv s).1 = Some err ∧ client (self (Connect srv s).2) = None.
Proof. intros Hd. unfold Connect. by rewrite Hd. Qed.

End ClientFacts.

(** C8. For every client without a transport session (its connection is
    nil), whatever the far end would answer, each of Get, Put, Delete and
    Stat fails at once with the not-connected error, issues no remote call
    and leaves the client as it was; the failure is the result of that call
    alone, nothing is recorded in the client. *)
Theorem C8_not_connected (srv : Remote) (s : Sys) (key value : string) :
  client (self s) = None →
  Get srv key s = (("", Some (errors_New "not connected")), s) ∧
  Put srv key value s = (Some (errors_New "not connected"), s) ∧
  Delete srv key s = (Some (errors_New "not connected"), s) ∧
  Stat srv s = (([], Some (errors_New "not connected")), s).
Proof.
  intros Hc. unfold Get, Put, Delete, Stat. rewrite Hc. done.
Qed.

Lemma C8_not_connected_witness :
  client (self fresh_sys) = None ∧
  Get echo_remote "k" fresh_sys =
    (("", Some (errors_New "not connected")), fresh_sys) ∧
  Put echo_remote "k" "v" fresh_sys =
    (Some (errors_New "not connected"), fresh_sys) ∧
  Delete echo_remote "k" fresh_sys =
    (Some (errors_New "not connected"), fresh_sys) ∧
  Stat echo_remote fresh_sys =
    (([], Some (errors_New "not connected")), fresh_sys).
Proof.
  split; [reflexivity|].
  apply (C8_not_connected echo_remote fresh_sys "k" "v"). reflexivity.
Defined.

(** C9. A newly constructed client has read tier and write tier ALL (and
    no session); SetReadLevel changes the read tier only and SetWriteLevel
    the write tier only, each leaving the other tier, the address, the
    port, the connection and the wire as they were, so the two tiers can be
    set independently and in either order. *)
Theorem C9_levels (address0 : string) (port0 : Z) (s : Sys) (level level' : string) :
  (readLevel (NewSwimringClient address0 port0) = ALL ∧
   writeLevel (NewSwimringClient address0 port0) = ALL ∧
   address (NewSwimringClient address0 port0) = address0 ∧
   port (NewSwimringClient address0 port0) = port0 ∧
   client (NewSwimringClient address0 port0) = None) ∧
  (readLevel (self (SetReadLevel level s)) = level ∧
   writeLevel (self (SetReadLevel level s)) = writeLevel (self s) ∧
   address (self (SetReadLevel level s)) = address (self s) ∧
   port (self (SetReadLevel level s)) = port (self s) ∧
   client (self (SetReadLevel level s)) = client (self s) ∧
   wire (SetReadLevel level s) = wire s) ∧
  (writeLevel (self (SetWriteLevel level s)) = level ∧
   readLevel (self (SetWriteLevel level s)) = readLevel (self s) ∧
   address (self (SetWriteLevel level s)) = address (self s) ∧
   port (self (SetWriteLevel level s)) = port (self s) ∧
   client (self (SetWriteLevel level s)) = client (self s) ∧
   wire (SetWriteLevel level s) = wire s) ∧
  SetReadLevel level (SetWriteLevel level' s) =
    SetWriteLevel level' (SetReadLevel level s).
Proof. repeat split. Qed.

(* ===================================================================== *)
(** * More on [Compare]                                                   *)
(* ===================================================================== *)

Section CompareMore.

Implicit Types (A B C : VectorClock).

Lemma lookup_counters A n : counters A !! n = Counter <$> Entries A !! n.
Proof. unfold counters. apply lookup_fmap. Qed.

(** [ahead] in terms of the counters alone. *)
Lemma ahead_counters A B :
  ahead A B ↔
  ∃ n a, counters A !! n = Some a ∧
         match counters B !! n with
         | Some b => a > b
         | None => True
         end.
Proof.
  unfold ahead. split.
  - intros (n & e & He & Hcmp). exists n, (Counter e).
    rewrite !lookup_counters, He. split; [done|].
    by destruct (Entries B !! n).
  - intros (n & a & Ha & Hcmp). rewrite !lookup_counters in *.
    destruct (Entries A !! n) as [e|] eqn:He; [|done].
    injection Ha as <-. exists n, e. split; [done|].
    by destruct (Entries B !! n).
Qed.

(** [A] is nowhere ahead of [B]: every node of [A] is stored in [B] with a
    counter at least as large. *)
Lemma not_ahead_iff A B :
  ¬ ahead A B ↔
  ∀ n a, Entries A !! n = Some a →
         ∃ b, Entries B !! n = Some b ∧ Counter a <= Counter b.
Proof.
  split.
  - intros Hno n a Ha.
    destruct (Entries B !! n) as [b|] eqn:Hb.
    + exists b. split; [done|].
      destruct (Z_le_gt_dec (Counter a) (Counter b)) as [|Hgt]; [done|].
      exfalso. apply Hno. exists n, a. rewrite Hb. split; [done|lia].
    + exfalso. apply Hno. exists n, a. by rewrite Hb.
  - intros Hle (n & a & Ha & Hcmp).
    destruct (Hle n a Ha) as (b & Hb & Hab). rewrite Hb in Hcmp. lia.
Qed.

Lemma not_ahead_trans A B C : ¬ ahead A B → ¬ ahead B C → ¬ ahead A C.
Proof.
  rewrite !not_ahead_iff. intros HAB HBC n a Ha.
  destruct (HAB n a Ha) as (b & Hb & Hab).
  destruct (HBC n b Hb) as (c & Hc & Hbc).
  exists c. split; [done|lia].
Qed.

Lemma Compare_determined A B A' B' :
  (ahead A B ↔ ahead A' B') → (ahead B A ↔ ahead B' A') →
  Compare A B = Compare A' B'.
Proof.
  intros Hn Ho.
  destruct (Compare_flags A B) as (fl & -> & Hfn & Hfo).
  destruct (Compare_flags A' B') as (fl' & -> & Hfn' & Hfo').
  unfold verdict.
  assert (isNewer fl = isNewer fl') as ->.
  { apply eq_true_iff_eq. by rewrite Hfn, Hfn'. }
  assert (isOlder fl = isOlder fl') as ->.
  { apply eq_true_iff_eq. by rewrite Hfo, Hfo'. }
  done.
Qed.

Lemma Compare_EQUAL_counters A B :
  Compare A B = "EQUAL" ↔ counters A = counters B.
Proof.
  rewrite Compare_EQUAL, !not_ahead_iff. split.
  - intros [HAB HBA]. apply map_eq. intros n. rewrite !lookup_counters.
    destruct (Entries A !! n) as [a|] eqn:Ha, (Entries B !! n) as [b|] eqn:Hb;
      simpl; [| | |done].
    + destruct (HAB n a Ha) as (b' & Hb' & Hab).
      destruct (HBA n b Hb) as (a' & Ha' & Hba).
      rewrite Hb in Hb'. rewrite Ha in Ha'. simplify_eq. f_equal. lia.
    + destruct (HAB n a Ha) as (b' & Hb' & _). congruence.
    + destruct (HBA n b Hb) as (a' & Ha' & _). congruence.
  - intros Heq. split; intros n e He.
    + pose proof (f_equal (λ m, m !! n) Heq) as Hn. simpl in Hn.
      rewrite !lookup_counters, He in Hn. simpl in Hn.
      destruct (Entries B !! n) as [b|]; [|done].
      injection Hn as Hn. exists b. split; [done|lia].
    + pose proof (f_equal (λ m, m !! n) Heq) as Hn. simpl in Hn.
      rewrite !lookup_counters, He in Hn. simpl in Hn.
      destruct (Entries A !! n) as [a|]; [|done].
      injection Hn as Hn. exists a. split; [done|lia].
Qed.

End CompareMore.

(** X1. The two loops of Compare may visit the entries of the maps in any
    order (Go does not fix the order of a range over a map): the result is
    the same for all orders. *)
Theorem X1_Compare_any_visiting_order
    (A B : VectorClock) (o_other o_self : list (string * ClockEntry)) :
  o_other ≡ₚ map_to_list (Entries B) →
  o_self ≡ₚ map_to_list (Entries A) →
  Compare_along A B o_other o_self = Compare A B.
Proof. apply Compare_order_irrelevant. Qed.

Lemma X1_Compare_any_visiting_order_witness :
  Compare_along clock_n1_n1 clock_n1_n2
    (reverse (map_to_list (Entries clock_n1_n2)))
    (reverse (map_to_list (Entries clock_n1_n1)))
  = Compare clock_n1_n1 clock_n1_n2.
Proof.
  apply X1_Compare_any_visiting_order; apply reverse_Permutation.
Defined.

(** X2. Comparing a clock with itself gives EQUAL, whatever counters it
    stores. *)
Theorem X2_Compare_self_EQUAL (A : VectorClock) : Compare A A = "EQUAL".
Proof. apply Compare_refl. Qed.

(** X3. Compare reads nothing but the counters: clocks that store the same
    counter for the same nodes compare alike, whatever their NodeID fields
    and update times are. *)
Theorem X3_Compare_reads_counters_only (A B A' B' : VectorClock) :
  counters A = counters A' → counters B = counters B' →
  Compare A B = Compare A' B'.
Proof.
  intros HA HB. apply Compare_determined;
    rewrite !ahead_counters, HA, HB; done.
Qed.

Lemma X3_Compare_reads_counters_only_witness :
  Compare clock_n1_n1 clock_n1_n2 = Compare clock_n1_n1_later clock_n1_n2.
Proof.
  apply X3_Compare_reads_counters_only; vm_compute; reflexivity.
Defined.

(** X4. Compare answers EQUAL exactly when the two clocks store the same
    nodes with the same counters. *)
Theorem X4_Compare_EQUAL_iff_same_counters (A B : VectorClock) :
  Compare A B = "EQUAL" ↔ counters A = counters B.
Proof. apply Compare_EQUAL_counters. Qed.

(** X5. NEWER is transitive, for all clocks: if A is NEWER than B and B is
    NEWER than C then A is NEWER than C; and NEWER never holds both ways. *)
Theorem X5_Compare_NEWER_transitive (A B C : VectorClock) :
  Compare A B = "NEWER" → Compare B C = "NEWER" →
  Compare A C = "NEWER" ∧ Compare C A ≠ "NEWER".
Proof.
  rewrite !Compare_NEWER. intros [HAB HnBA] [HBC HnCB].
  assert (¬ ahead C A) as HnCA by (by apply (not_ahead_trans C B A)).
  split; [|tauto]. split; [|done].
  destruct (ahead_dec A C) as [|HnAC]; [done|].
  exfalso. by apply (not_ahead_trans A C B HnAC HnCB).
Qed.

Lemma X5_Compare_NEWER_transitive_witness :
  Compare clock_n1_n1_n1 NewVectorClock = "NEWER" ∧
  Compare NewVectorClock clock_n1_n1_n1 ≠ "NEWER".
Proof.
  apply (X5_Compare_NEWER_transitive clock_n1_n1_n1 clock_n1_n1 NewVectorClock);
    vm_compute; reflexivity.
Defined.

(* ===================================================================== *)
(** * Histories of updates                                                *)
(* ===================================================================== *)

Section Histories.

Implicit Types (vc A C : VectorClock) (n m : string) (t : Timestamp).
Implicit Types (evs : list (string * Timestamp)).

(** The entries after two updates of different nodes. *)
Lemma lookup_Update_Update vc n m t1 t2 k :
  n ≠ m →
  Entries (Update (Update vc n t1) m t2) !! k =
    if decide (k = m) then Some (stored_by_Update vc m t2)
    else if decide (k = n) then Some (stored_by_Update vc n t1)
    else Entries vc !! k.
Proof.
  intros Hne. unfold stored_by_Update.
  destruct (decide (k = m)) as [->|Hkm].
  - rewrite lookup_Update_eq. by rewrite lookup_Update_ne by done.
  - rewrite lookup_Update_ne by done.
    destruct (decide (k = n)) as [->|Hkn].
    + by rewrite lookup_Update_eq.
    + by rewrite lookup_Update_ne.
Qed.

Lemma Updates_snoc C evs n t :
  Updates C (evs ++ [(n, t)]) = Update (Updates C evs) n t.
Proof. unfold Updates. by rewrite foldl_app. Qed.

(** A run of updates leaves a clock that is NEWER than the one it started
    from, if no counter wraps around. *)
Lemma Updates_NEWER C evs :
  evs ≠ [] → no_overflow C evs → Compare (Updates C evs) C = "NEWER".
Proof.
  intros Hne Hno. apply Compare_NEWER. split.
  - destruct evs as [|[n t] evs]; [done|].
    apply (ahead_Updates C ((n, t) :: evs) [] n).
    + simpl. left.
    + simpl. apply not_elem_of_nil.
    + apply Hno. simpl. left.
    + apply Hno. simpl. left.
  - apply not_ahead_iff. intros n c Hc.
    destruct (decide (n ∈ evs.*1)) as [Hin|Hnot].
    + destruct (present_Updates evs C n (or_intror Hin)) as [a Ha].
      exists a. split; [done|].
      destruct (Hno n Hin) as [Hlo Hhi].
      pose proof (counter_of_Updates evs C n Hlo Hhi) as Hcnt.
      unfold counter_of in Hcnt. rewrite Ha, Hc in Hcnt. lia.
    + exists c. split; [|lia]. by rewrite lookup_Updates_notin.
Qed.

Lemma filter_updates_nil n evs :
  n ∉ evs.*1 → filter (λ ev, ev.1 = n) evs = [].
Proof.
  induction evs as [|[m t] evs IH]; [done|]. simpl.
  intros [Hne Hnot]%not_elem_of_cons.
  rewrite filter_cons_False by (simpl; congruence). auto.
Qed.

(** The entry of a node in a clock grown from the empty one. *)
Lemma lookup_Updates_empty evs n :
  Z.of_nat (length evs) <= GoInt.MaxInt →
  Entries (Updates NewVectorClock evs) !! n =
    (λ t, {| NodeID := n;
             Counter := Z.of_nat (updates_of n evs);
             Updated := t |}) <$> last_update n evs.
Proof.
  induction evs as [|[m t] evs IH] using rev_ind; intros Hlen.
  - unfold Updates, NewVectorClock, last_update; simpl. apply lookup_empty.
  - rewrite length_app in Hlen. simpl in Hlen.
    rewrite Updates_snoc.
    unfold last_update, updates_of in *. rewrite filter_app, fmap_app, length_app.
    specialize (IH ltac:(lia)).
    assert (length (filter (λ ev, ev.1 = n) evs) ≤ length evs)%nat as Hle
      by apply length_filter.
    destruct (decide (m = n)) as [->|Hne].
    + rewrite filter_cons_True by done. rewrite filter_nil. simpl.
      rewrite last_snoc. simpl.
      rewrite lookup_Update_eq, IH. f_equal.
      destruct (last (filter (λ ev, ev.1 = n) evs).*2) as [t0|] eqn:Hlast; simpl.
      * f_equal. rewrite incr_no_overflow.
        -- lia.
        -- unfold GoInt.MinInt, GoInt.MaxInt, GoInt.intSize in *. simpl in *. lia.
      * apply last_None in Hlast. apply fmap_nil_inv in Hlast.
        rewrite Hlast. simpl. done.
    + rewrite filter_cons_False by done. rewrite filter_nil. simpl.
      rewrite !app_nil_r, Nat.add_0_r.
      rewrite lookup_Update_ne by done. apply IH.
Qed.

End Histories.

(** X6. Any non-empty run of Updates, on any nodes, leaves a clock that
    compares as NEWER than the clock it started from (and the start as
    OLDER than the result), provided no counter wraps around. *)
Theorem X6_updated_clock_is_NEWER
    (C : VectorClock) (evs : list (string * Timestamp)) :
  evs ≠ [] → no_overflow C evs →
  Compare (Updates C evs) C = "NEWER" ∧ Compare C (Updates C evs) = "OLDER".
Proof.
  intros Hne Hno. pose proof (Updates_NEWER C evs Hne Hno) as H.
  split; [done|].
  apply Compare_OLDER. by apply Compare_NEWER in H.
Qed.

Lemma X6_updated_clock_is_NEWER_witness :
  Compare (Updates clock_n1_n2 [("n3", 31); ("n1", 32)]) clock_n1_n2 = "NEWER" ∧
  Compare clock_n1_n2 (Updates clock_n1_n2 [("n3", 31); ("n1", 32)]) = "OLDER".
Proof.
  apply X6_updated_clock_is_NEWER.
  - discriminate.
  - apply no_overflow_decide. vm_compute. reflexivity.
Defined.

(** X7. Updates of two different nodes commute in what they count: the
    two call orders, each call reading the clock when it runs, leave clocks
    with the same NodeID and the same counter in every entry, so that they
    compare as EQUAL. The Updated times do not commute: each node carries
    the time read at its own call, so they follow the order of the calls. *)
Theorem X7_Update_different_nodes_commute
    (vc : VectorClock) (n m : string) (t1 t2 t3 t4 : Timestamp) :
  n ≠ m →
  (∀ k, id_and_counter <$> Entries (Update (Update vc n t1) m t2) !! k =
        id_and_counter <$> Entries (Update (Update vc m t3) n t4) !! k) ∧
  Compare (Update (Update vc n t1) m t2) (Update (Update vc m t3) n t4) = "EQUAL" ∧
  Updated <$> Entries (Update (Update vc n t1) m t2) !! n = Some t1 ∧
  Updated <$> Entries (Update (Update vc n t1) m t2) !! m = Some t2 ∧
  Updated <$> Entries (Update (Update vc m t3) n t4) !! m = Some t3 ∧
  Updated <$> Entries (Update (Update vc m t3) n t4) !! n = Some t4.
Proof.
  intros Hne. assert (m ≠ n) as Hne' by congruence.
  assert (∀ k, id_and_counter <$> Entries (Update (Update vc n t1) m t2) !! k =
               id_and_counter <$> Entries (Update (Update vc m t3) n t4) !! k)
    as Hsame.
  { intros k.
    rewrite (lookup_Update_Update vc n m t1 t2 k Hne).
    rewrite (lookup_Update_Update vc m n t3 t4 k Hne').
    unfold stored_by_Update.
    destruct (decide (k = m)) as [Ekm|Nkm]; destruct (decide (k = n)) as [Ekn|Nkn];
      subst; try done; simpl.
    - by destruct (Entries vc !! m).
    - by destruct (Entries vc !! n). }
  split; [done|]. split.
  - apply Compare_EQUAL_counters. apply map_eq. intros k.
    rewrite !lookup_counters. specialize (Hsame k).
    destruct (Entries (Update (Update vc n t1) m t2) !! k) as [a|],
             (Entries (Update (Update vc m t3) n t4) !! k) as [b|];
      simpl in *; try done.
    injection Hsame as _ Hc. by rewrite Hc.
  - rewrite (lookup_Update_Update vc n m t1 t2 n Hne).
    rewrite (lookup_Update_Update vc n m t1 t2 m Hne).
    rewrite (lookup_Update_Update vc m n t3 t4 m Hne').
    rewrite (lookup_Update_Update vc m n t3 t4 n Hne').
    unfold stored_by_Update.
    rewrite !(decide_True (P := m = m)) by done.
    rewrite !(decide_True (P := n = n)) by done.
    rewrite !(decide_False (P := n = m)) by done.
    rewrite !(decide_False (P := m = n)) by done.
    destruct (Entries vc !! n), (Entries vc !! m); done.
Qed.

Lemma X7_Update_different_nodes_commute_witness :
  Compare (Update (Update clock_n1_n2 "n1" 5) "n3" 6)
          (Update (Update clock_n1_n2 "n3" 7) "n1" 8) = "EQUAL" ∧
  Updated <$> Entries (Update (Update clock_n1_n2 "n1" 5) "n3" 6) !! "n1" = Some 5 ∧
  Updated <$> Entries (Update (Update clock_n1_n2 "n3" 7) "n1" 8) !! "n1" = Some 8.
Proof.
  destruct (X7_Update_different_nodes_commute clock_n1_n2 "n1" "n3" 5 6 7 8)
    as (_ & Heq & Ht1 & _ & _ & Ht4); [discriminate|].
  split; [exact Heq|]. split; [exact Ht1|exact Ht4].
Defined.

(** X8. In a clock grown from the empty one by Updates (fewer than MaxInt
    of them), a node is stored exactly if it was updated, and its entry
    carries the node's own ID, the number of its updates as counter (so at
    least 1) and the time of its latest update. *)
Theorem X8_clock_records_history
    (evs : list (string * Timestamp)) (n : string) :
  Z.of_nat (length evs) <= GoInt.MaxInt →
  (n ∉ evs.*1 → Entries (Updates NewVectorClock evs) !! n = None) ∧
  (n ∈ evs.*1 →
   ∃ t, last_update n evs = Some t ∧
        (1 <= updates_of n evs)%nat ∧
        Entries (Updates NewVectorClock evs) !! n =
          Some {| NodeID := n;
                  Counter := Z.of_nat (updates_of n evs);
                  Updated := t |}).
Proof.
  intros Hlen. rewrite lookup_Updates_empty by done. split.
  - intros Hnot. unfold last_update.
    by rewrite (filter_updates_nil n evs Hnot).
  - intros Hin. pose proof (updates_of_pos n evs Hin) as Hpos.
    unfold last_update, updates_of in *.
    destruct (last (filter (λ ev, ev.1 = n) evs).*2) as [t|] eqn:Hl.
    + exists t. split; [done|]. split; [lia|done].
    + apply last_None, fmap_nil_inv in Hl. rewrite Hl in Hpos.
      simpl in Hpos. lia.
Qed.

Lemma X8_clock_records_history_witness :
  let evs := [("n1", 10); ("n2", 15); ("n1", 20)] in
  Z.of_nat (length evs) <= GoInt.MaxInt ∧
  ("n3" ∉ evs.*1 → Entries (Updates NewVectorClock evs) !! "n3" = None).
Proof.
  intros evs.
  assert (Z.of_nat (length evs) <= GoInt.MaxInt) as H by (vm_compute; discriminate).
  split; [exact H|].
  exact (proj1 (X8_clock_records_history evs "n3" H)).
Defined.

(* ===================================================================== *)
(** * More on the tokenizer                                               *)
(* ===================================================================== *)

Section TokenizerMore.

Implicit Types (s t tok q line : string) (st : Scanner).
Implicit Types (pre mid post toks : list string) (c sep : ascii).

Lemma append_nil_r s : s +:+ "" = s.
Proof. induction s as [|c s IH]; [done|]. by rewrite append_cons, IH. Qed.

Lemma Split_not_nil s sep : strings.Split s sep ≠ [].
Proof.
  destruct s as [|c s]; simpl; [done|].
  destruct (Ascii.eqb c sep); [done|]. by destruct (strings.Split s sep).
Qed.

Lemma Join_cons e l sep_s :
  l ≠ [] → strings.Join (e :: l) sep_s = e +:+ sep_s +:+ strings.Join l sep_s.
Proof. by destruct l. Qed.

(** Joining the pieces with the separator gives the string back. *)
Lemma Join_Split s sep : strings.Join (strings.Split s sep) (String sep "") = s.
Proof.
  induction s as [|c s IH]; [done|]. cbn [strings.Split].
  pose proof (Split_not_nil s sep) as Hnn.
  destruct (Ascii.eqb_spec c sep) as [->|Hne].
  - rewrite Join_cons by done. by rewrite IH.
  - destruct (strings.Split s sep) as [|p ps]; [done|].
    destruct ps as [|p' ps].
    + simpl in *. by rewrite IH.
    + rewrite Join_cons in * by done. by rewrite append_cons, IH.
Qed.

(** Splitting distributes over a separator between two strings. *)
Lemma Split_app_sep s1 s2 sep :
  strings.Split (s1 +:+ String sep s2) sep =
  strings.Split s1 sep ++ strings.Split s2 sep.
Proof.
  induction s1 as [|c s1 IH].
  - rewrite append_nil_l. simpl. by rewrite Ascii.eqb_refl.
  - rewrite append_cons. simpl. rewrite IH.
    destruct (Ascii.eqb c sep); [done|].
    pose proof (Split_not_nil s1 sep).
    by destruct (strings.Split s1 sep).
Qed.

(** Outside a span, a token that does not begin with a quote is appended
    to the result as it is. *)
Lemma SafeSplit_step_plain st tok :
  inquote st = "" → begins_with_quote tok = false →
  SafeSplit_step st tok =
    {| result := result st ++ [tok]; inquote := ""; block := block st |}.
Proof.
  unfold SafeSplit_step, begins_with_quote. by intros -> ->.
Qed.

Lemma SafeSplit_loop_plain toks st :
  inquote st = "" →
  (∀ t, t ∈ toks → begins_with_quote t = false) →
  SafeSplit_loop st toks =
    {| result := result st ++ toks; inquote := ""; block := block st |}.
Proof.
  revert st. induction toks as [|t toks IH]; intros st Hq Hplain.
  - unfold SafeSplit_loop. simpl. rewrite app_nil_r.
    destruct st; simpl in *. by subst.
  - change (SafeSplit_loop st (t :: toks))
      with (SafeSplit_loop (SafeSplit_step st t) toks).
    rewrite SafeSplit_step_plain; [|done|apply Hplain; left].
    rewrite IH; simpl; [|done|intros t' Ht'; apply Hplain; by right].
    by rewrite <- app_assoc.
Qed.

(** Inside a span, the token that ends with the pending quote closes it:
    the buffer and the token without that quote become one segment. *)
Lemma SafeSplit_step_close st tok :
  inquote st ≠ "" → strings.HasSuffix tok (inquote st) = true →
  SafeSplit_step st tok =
    {| result := result st ++ [block st +:+ strings.TrimSuffix tok (inquote st)];
       inquote := ""; block := "" |}.
Proof.
  intros Hq Hs. unfold SafeSplit_step.
  destruct (String.eqb_spec (inquote st) "") as [E|_]; [done|].
  by rewrite Hs.
Qed.

Lemma buffered_Join x mid y :
  buffered (x :: mid) +:+ y = strings.Join (x :: mid ++ [y]) " ".
Proof.
  revert x. induction mid as [|m mid IH]; intros x.
  - unfold buffered. simpl. by rewrite append_nil_r, append_assoc.
  - change (buffered (x :: m :: mid)) with ((x +:+ " ") +:+ buffered (m :: mid)).
    rewrite append_assoc, IH. simpl. by rewrite append_assoc.
Qed.

Lemma SafeSplit_step_prepend r st tok :
  SafeSplit_step (prepend r st) tok = prepend r (SafeSplit_step st tok).
Proof.
  unfold SafeSplit_step, prepend; simpl.
  destruct (String.eqb (inquote st) "").
  - destruct (strings.HasPrefix tok squote || strings.HasPrefix tok dquote);
      simpl; by rewrite ?app_assoc.
  - destruct (strings.HasSuffix tok (inquote st)); simpl; by rewrite ?app_assoc.
Qed.

Lemma SafeSplit_loop_prepend toks r st :
  SafeSplit_loop (prepend r st) toks = prepend r (SafeSplit_loop st toks).
Proof.
  revert st. induction toks as [|t toks IH]; intros st; [done|].
  change (SafeSplit_loop ?s (t :: toks))
    with (SafeSplit_loop (SafeSplit_step s t) toks).
  by rewrite SafeSplit_step_prepend, IH.
Qed.

(** Outside a span the buffer is dead: what it holds has no effect on the
    result. *)
Lemma SafeSplit_loop_block_dead toks r b b' :
  result (SafeSplit_loop {| result := r; inquote := ""; block := b |} toks) =
  result (SafeSplit_loop {| result := r; inquote := ""; block := b' |} toks).
Proof.
  revert r. induction toks as [|t toks IH]; intros r; [done|].
  change (SafeSplit_loop ?s (t :: toks))
    with (SafeSplit_loop (SafeSplit_step s t) toks).
  unfold SafeSplit_step at 1 2. simpl.
  destruct (strings.HasPrefix t squote || strings.HasPrefix t dquote); [done|].
  apply IH.
Qed.

(** When no span is open after [pre], the loop starts afresh on what
    follows. *)
Lemma SafeSplit_loop_restart pre post :
  inquote (SafeSplit_loop scanner0 pre) = "" →
  result (SafeSplit_loop scanner0 (pre ++ post)) =
  result (SafeSplit_loop scanner0 pre) ++ result (SafeSplit_loop scanner0 post).
Proof.
  intros Hq. rewrite SafeSplit_loop_app.
  destruct (SafeSplit_loop scanner0 pre) as [r i b]; simpl in *; subst i.
  rewrite (SafeSplit_loop_block_dead post r b "").
  assert ({| result := r; inquote := ""; block := "" |} = prepend r scanner0) as ->.
  { unfold prepend, scanner0; simpl. by rewrite app_nil_r. }
  by rewrite SafeSplit_loop_prepend.
Qed.

(** A step appends at most one segment and removes none. *)
Lemma SafeSplit_step_length st tok :
  (length (result st) ≤ length (result (SafeSplit_step st tok)) ≤
   S (length (result st)))%nat.
Proof.
  unfold SafeSplit_step.
  destruct (String.eqb (inquote st) "").
  - destruct (strings.HasPrefix tok squote || strings.HasPrefix tok dquote);
      simpl; rewrite ?length_app; simpl; lia.
  - destruct (strings.HasSuffix tok (inquote st)); simpl;
      rewrite ?length_app; simpl; lia.
Qed.

Lemma SafeSplit_loop_length toks st :
  (length (result st) ≤ length (result (SafeSplit_loop st toks)) ≤
   length (result st) + length toks)%nat.
Proof.
  revert st. induction toks as [|t toks IH]; intros st.
  - unfold SafeSplit_loop. simpl. lia.
  - change (SafeSplit_loop st (t :: toks))
      with (SafeSplit_loop (SafeSplit_step st t) toks).
    pose proof (IH (SafeSplit_step st t)).
    pose proof (SafeSplit_step_length st t). simpl. lia.
Qed.

(** Inside a span, a later token that ends with the pending quote makes
    the result grow. *)
Lemma SafeSplit_loop_close_grows toks st :
  inquote st ≠ "" →
  Exists (λ t, strings.HasSuffix t (inquote st) = true) toks →
  (length (result st) < length (result (SafeSplit_loop st toks)))%nat.
Proof.
  revert st. induction toks as [|t toks IH]; intros st Hq Hex.
  - by apply Exists_nil in Hex.
  - change (SafeSplit_loop st (t :: toks))
      with (SafeSplit_loop (SafeSplit_step st t) toks).
    destruct (strings.HasSuffix t (inquote st)) eqn:Hs.
    + pose proof (SafeSplit_loop_length toks (SafeSplit_step st t)) as Hl.
      rewrite SafeSplit_step_close in * by done. simpl in Hl.
      rewrite length_app in Hl. simpl in Hl. lia.
    + apply Exists_cons in Hex as [Hex|Hex]; [congruence|].
      assert (SafeSplit_step st t =
              {| result := result st; inquote := inquote st;
                 block := block st +:+ t +:+ " " |}) as ->.
      { unfold SafeSplit_step.
        destruct (String.eqb_spec (inquote st) "") as [E|_]; [done|].
        by rewrite Hs. }
      by apply (IH {| result := result st; inquote := inquote st;
                      block := block st +:+ t +:+ " " |}).
Qed.

End TokenizerMore.

(** X9. On a line none of whose space-separated tokens begins with a quote
    character, SafeSplit is the plain split on single spaces: every token is
    returned as it is, empty tokens between adjacent spaces included, and
    joining the result with spaces gives the line back. *)
Theorem X9_SafeSplit_plain_line (line : string) :
  (∀ t, t ∈ strings.Split line space → begins_with_quote t = false) →
  SafeSplit line = strings.Split line space ∧
  strings.Join (SafeSplit line) " " = line.
Proof.
  intros Hplain.
  assert (SafeSplit line = strings.Split line space) as Heq.
  { unfold SafeSplit. by rewrite SafeSplit_loop_plain. }
  split; [done|]. rewrite Heq. apply Join_Split.
Qed.

Lemma X9_SafeSplit_plain_line_witness :
  SafeSplit "a  b " = ["a"; ""; "b"; ""] ∧
  strings.Join (SafeSplit "a  b ") " " = "a  b ".
Proof.
  apply (X9_SafeSplit_plain_line "a  b ").
  intros t Ht. vm_compute in Ht.
  repeat (apply elem_of_cons in Ht as [->|Ht]; [vm_compute; reflexivity|]).
  by apply elem_of_nil in Ht.
Defined.

(** X10. A quoted span that is closed gives exactly one segment: when a
    token beginning with a quote is read outside a span and the first later
    token ending with that quote is [close], the words from the one to the
    other, without the opening and the closing quote and joined by single
    spaces, form one segment, placed between what the tokens before and the
    tokens after produce. *)
Theorem X10_closed_span_is_one_segment
    (line : string) (pre : list string) (open : string) (mid : list string)
    (close : string) (post : list string) :
  strings.Split line space = pre ++ open :: mid ++ close :: post →
  inquote (SafeSplit_loop scanner0 pre) = "" →
  begins_with_quote open = true →
  (∀ t, t ∈ mid → strings.HasSuffix t (string_of_first open) = false) →
  strings.HasSuffix close (string_of_first open) = true →
  SafeSplit line =
    result (SafeSplit_loop scanner0 pre) ++
    [strings.Join (strings.TrimPrefix open (string_of_first open) :: mid ++
                   [strings.TrimSuffix close (string_of_first open)]) " "] ++
    result (SafeSplit_loop scanner0 post).
Proof.
  intros Hsplit Hpre Hopen Hmid Hclose.
  assert (SafeSplit_loop scanner0 (pre ++ open :: mid ++ [close]) =
          {| result := result (SafeSplit_loop scanner0 pre) ++
               [strings.Join (strings.TrimPrefix open (string_of_first open) :: mid ++
                   [strings.TrimSuffix close (string_of_first open)]) " "];
             inquote := ""; block := "" |}) as Hspan.
  { replace (pre ++ open :: mid ++ [close])
      with ((pre ++ open :: mid) ++ [close]) by (by rewrite <- app_assoc).
    rewrite SafeSplit_loop_app, SafeSplit_loop_unterminated by done.
    change (SafeSplit_loop ?st [close]) with (SafeSplit_step st close).
    rewrite SafeSplit_step_close; cbn [result inquote block].
    - by rewrite buffered_Join.
    - by apply begins_with_quote_first.
    - done. }
  unfold SafeSplit. rewrite Hsplit.
  replace (pre ++ open :: mid ++ close :: post)
    with ((pre ++ open :: mid ++ [close]) ++ post)
    by (rewrite <- !app_assoc; simpl; by rewrite <- app_assoc).
  rewrite SafeSplit_loop_restart; rewrite Hspan; simpl; [|done].
  by rewrite <- app_assoc.
Qed.

Lemma X10_closed_span_is_one_segment_witness :
  SafeSplit line_put_quoted = ["put"] ++ ["hello world"] ++ ["value"].
Proof.
  apply (X10_closed_span_is_one_segment line_put_quoted
           ["put"] (dquote +:+ "hello") [] ("world" +:+ dquote) ["value"]).
  - vm_compute; reflexivity.
  - vm_compute; reflexivity.
  - vm_compute; reflexivity.
  - intros t Ht. by apply elem_of_nil in Ht.
  - vm_compute; reflexivity.
Defined.

(** X11. The tokenizer composes: if no quoted span is left open at the end
    of a line, then the tokens of that line followed by a space and a
    second line are the tokens of the first followed by the tokens of the
    second. *)
Theorem X11_SafeSplit_of_two_lines (line1 line2 : string) :
  inquote (SafeSplit_loop scanner0 (strings.Split line1 space)) = "" →
  SafeSplit (line1 +:+ " " +:+ line2) = SafeSplit line1 ++ SafeSplit line2.
Proof.
  intros Hq. unfold SafeSplit.
  change (" " +:+ line2) with (String space line2).
  rewrite Split_app_sep. by apply SafeSplit_loop_restart.
Qed.

Lemma X11_SafeSplit_of_two_lines_witness :
  SafeSplit (line_put_quoted +:+ " " +:+ line_get_key1) =
  SafeSplit line_put_quoted ++ SafeSplit line_get_key1.
Proof.
  apply X11_SafeSplit_of_two_lines. vm_compute; reflexivity.
Defined.

(** X12. SafeSplit returns no token at all exactly when the first token of
    the line begins with a quote and no later token ends with that quote. *)
Theorem X12_SafeSplit_empty_result (line : string) :
  SafeSplit line = [] ↔
  ∃ tok post,
    strings.Split line space = tok :: post ∧
    begins_with_quote tok = true ∧
    ∀ t, t ∈ post → strings.HasSuffix t (string_of_first tok) = false.
Proof.
  split.
  - intros Hnil. unfold SafeSplit in Hnil.
    pose proof (Split_not_nil line space) as Hnn.
    destruct (strings.Split line space) as [|tok post]; [done|].
    exists tok, post. split; [done|].
    change (SafeSplit_loop scanner0 (tok :: post))
      with (SafeSplit_loop (SafeSplit_step scanner0 tok) post) in Hnil.
    pose proof (SafeSplit_loop_length post (SafeSplit_step scanner0 tok)) as Hlen.
    rewrite Hnil in Hlen. simpl in Hlen.
    destruct (begins_with_quote tok) eqn:Hb.
    + split; [done|].
      rewrite SafeSplit_step_open in Hnil by done.
      destruct (begins_with_quote_first tok Hb) as [_ Hq].
      apply Forall_forall.
      destruct (decide (Exists (λ t, strings.HasSuffix t (string_of_first tok) = true)
                          post)) as [Hex|Hno].
      * exfalso.
        pose proof (SafeSplit_loop_close_grows post
          {| result := result scanner0;
             inquote := string_of_first tok;
             block := strings.TrimPrefix tok (string_of_first tok) +:+ " " |}
          Hq Hex) as Hgrow.
        rewrite Hnil in Hgrow. simpl in Hgrow. lia.
      * apply not_Exists_Forall in Hno; [|intros t; apply _].
        eapply Forall_impl; [exact Hno|]. simpl. intros t Ht.
        by destruct (strings.HasSuffix t (string_of_first tok)).
    + rewrite SafeSplit_step_plain in Hlen by done. simpl in Hlen. lia.
  - intros (tok & post & Hsplit & Hb & Hpost). unfold SafeSplit.
    rewrite Hsplit.
    change (tok :: post) with ([] ++ tok :: post).
    by rewrite (SafeSplit_loop_unterminated [] tok post).
Qed.

(** X13. SafeSplit never returns more tokens than the line has
    space-separated pieces. *)
Theorem X13_SafeSplit_length_bound (line : string) :
  (length (SafeSplit line) ≤ length (strings.Split line space))%nat.
Proof.
  unfold SafeSplit.
  pose proof (SafeSplit_loop_length (strings.Split line space) scanner0) as H.
  simpl in H. lia.
Qed.

(* ===================================================================== *)
(** * More on the client                                                  *)
(* ===================================================================== *)

Section ClientMore.

Variable srv : Remote.

Implicit Types (s : Sys) (key value level : string) (h : rpc_Client).

Lemma Get_one_call key s : one_call_at_most s (Get srv key s).2.
Proof.
  unfold one_call_at_most, Get.
  destruct (client (self s)) as [h|] eqn:Hc.
  - destruct (on_Get srv (wire s) _); simpl; (split; [done|]);
      eexists; (split; [done|]); split; [done|done|done|done].
  - simpl. split; [done|]. exists []. rewrite app_nil_r.
    split; [done|]. split; [done|]. by intros [? ?].
Qed.

Lemma Put_one_call key value s : one_call_at_most s (Put srv key value s).2.
Proof.
  unfold one_call_at_most, Put.
  destruct (client (self s)) as [h|] eqn:Hc.
  - destruct (on_Put srv (wire s) _); simpl; (split; [done|]);
      eexists; (split; [done|]); split; [done|done|done|done].
  - simpl. split; [done|]. exists []. rewrite app_nil_r.
    split; [done|]. split; [done|]. by intros [? ?].
Qed.

Lemma Delete_one_call key s : one_call_at_most s (Delete srv key s).2.
Proof.
  unfold one_call_at_most, Delete.
  destruct (client (self s)) as [h|] eqn:Hc.
  - destruct (on_Delete srv (wire s) _); simpl; (split; [done|]);
      eexists; (split; [done|]); split; [done|done|done|done].
  - simpl. split; [done|]. exists []. rewrite app_nil_r.
    split; [done|]. split; [done|]. by intros [? ?].
Qed.

Lemma Stat_one_call s : one_call_at_most s (Stat srv s).2.
Proof.
  unfold one_call_at_most, Stat.
  destruct (client (self s)) as [h|] eqn:Hc.
  - destruct (on_Stat srv (wire s)); simpl; (split; [done|]);
      eexists; (split; [done|]); split; [done|done|done|done].
  - simpl. split; [done|]. exists []. rewrite app_nil_r.
    split; [done|]. split; [done|]. by intros [? ?].
Qed.

End ClientMore.

(** X14. The tier that is set is the tier that is sent: with a session,
    Get after SetReadLevel sends exactly one call, for SwimRing.Get, with
    that level and the key; Put and Delete after SetWriteLevel send that
    level; and the level of the other direction has no effect on what an
    operation sends. Levels are passed on as they are, whatever the string. *)
Theorem X14_level_set_is_level_sent
    (srv : Remote) (s : Sys) (h : rpc_Client) (key value level : string) :
  client (self s) = Some h →
  wire (Get srv key (SetReadLevel level s)).2 =
    wire s ++ [{| ev_session := h; ev_method := GetOp;
                  ev_args := ArgsGet {| get_Level := level; get_Key := key |} |}] ∧
  wire (Put srv key value (SetWriteLevel level s)).2 =
    wire s ++ [{| ev_session := h; ev_method := PutOp;
                  ev_args := ArgsPut {| put_Level := level; put_Key := key;
                                        put_Value := value |} |}] ∧
  wire (Delete srv key (SetWriteLevel level s)).2 =
    wire s ++ [{| ev_session := h; ev_method := DeleteOp;
                  ev_args := ArgsDelete {| del_Level := level; del_Key := key |} |}] ∧
  wire (Get srv key (SetWriteLevel level s)).2 = wire (Get srv key s).2 ∧
  wire (Put srv key value (SetReadLevel level s)).2 = wire (Put srv key value s).2 ∧
  wire (Delete srv key (SetReadLevel level s)).2 = wire (Delete srv key s).2.
Proof.
  intros Hc. unfold Get, Put, Delete, SetReadLevel, SetWriteLevel; simpl.
  rewrite Hc.
  repeat split;
    repeat match goal with
           | |- context [match ?o with _ => _ end] => destruct o
           end; done.
Qed.

Lemma X14_level_set_is_level_sent_witness :
  wire (Get echo_remote "k" (SetReadLevel "ALL" connected_sys)).2 =
    [{| ev_session := {| peer_host := "127.0.0.1"; peer_port := 7000 |};
        ev_method := GetOp;
        ev_args := ArgsGet {| get_Level := "ALL"; get_Key := "k" |} |}].
Proof.
  exact (proj1 (X14_level_set_is_level_sent echo_remote connected_sys
                  {| peer_host := "127.0.0.1"; peer_port := 7000 |}
                  "k" "v" "ALL" eq_refl)).
Defined.

(** X15. Whatever the far end answers, each of Get, Put, Delete and Stat
    leaves the client object as it is and the calls already issued in
    place, and issues exactly one remote call when there is a session and
    none when there is not: no operation retries or calls twice. *)
Theorem X15_operations_issue_one_call
    (srv : Remote) (s : Sys) (key value : string) :
  one_call_at_most s (Get srv key s).2 ∧
  one_call_at_most s (Put srv key value s).2 ∧
  one_call_at_most s (Delete srv key s).2 ∧
  one_call_at_most s (Stat srv s).2.
Proof.
  split; [apply Get_one_call|].
  split; [apply Put_one_call|].
  split; [apply Delete_one_call|apply Stat_one_call].
Qed.

(** X16. A Connect whose dial fails returns the dial's error and leaves the
    client without a session, also when it had one before: afterwards every
    operation fails with not connected and issues no call. Connect itself
    issues no call and changes neither the address, the port nor the
    levels. *)
Theorem X16_failed_Connect_drops_session
    (srv : Remote) (s : Sys) (err : error) (key value : string) :
  dial srv (address (self s)) (port (self s)) = inl err →
  (Connect srv s).1 = Some err ∧
  wire (Connect srv s).2 = wire s ∧
  address (self (Connect srv s).2) = address (self s) ∧
  port (self (Connect srv s).2) = port (self s) ∧
  readLevel (self (Connect srv s).2) = readLevel (self s) ∧
  writeLevel (self (Connect srv s).2) = writeLevel (self s) ∧
  Get srv key (Connect srv s).2 =
    (("", Some (errors_New "not connected")), (Connect srv s).2) ∧
  Put srv key value (Connect srv s).2 =
    (Some (errors_New "not connected"), (Connect srv s).2) ∧
  Delete srv key (Connect srv s).2 =
    (Some (errors_New "not connected"), (Connect srv s).2) ∧
  Stat srv (Connect srv s).2 =
    (([], Some (errors_New "not connected")), (Connect srv s).2).
Proof.
  intros Hd. unfold Connect. rewrite Hd. simpl. repeat split.
Qed.

Lemma X16_failed_Connect_drops_session_witness :
  is_Some (client (self connected_sys)) ∧
  Get dead_remote "k" (Connect dead_remote connected_sys).2 =
    (("", Some (errors_New "not connected")), (Connect dead_remote connected_sys).2).
Proof.
  split; [by eexists|].
  exact (proj1 (proj2 (proj2 (proj2 (proj2 (proj2 (proj2
    (X16_failed_Connect_drops_session dead_remote connected_sys
       (errors_New "connection refused") "k" "v" eq_refl)))))))).
Defined.

(* ===================================================================== *)
(** * The command shell                                                   *)
(* ===================================================================== *)

Section ShellFacts.

Variable srv : Remote.
Variable Itoa : Z → string.
Variable sort_Sort : NodeStats → option NodeStats.
Variable table_Render : list (list string) → list string.

Local Abbreviation processStat' := (processStat srv Itoa sort_Sort table_Render).
Local Abbreviation processCommand' := (processCommand srv Itoa sort_Sort table_Render).
Local Abbreviation main_turn' := (main_turn srv Itoa sort_Sort table_Render).
Local Abbreviation main_loop' := (main_loop srv Itoa sort_Sort table_Render).
Local Abbreviation main_start' := (main_start srv Itoa).

Implicit Types (sh : Shell) (tokens rest : list string) (line cmd : string).

Lemma handled_same_sys sh sh' out :
  sys sh' = sys sh → stdout sh' = stdout sh ++ out → handled sh sh'.
Proof.
  intros Hs Ho. unfold handled. rewrite Hs. split; [done|]. split.
  - exists []. rewrite app_nil_r. split; [done|]. split; [simpl; lia|done].
  - by exists out.
Qed.

Lemma handled_one_call sh sh' out :
  one_call_at_most (sys sh) (sys sh') → stdout sh' = stdout sh ++ out →
  handled sh sh'.
Proof.
  intros (Hself & evs & Hw & Hnone & Hsome) Ho. split; [done|]. split.
  - exists evs. split; [done|]. split; [|done].
    destruct (client (self (sys sh))) as [h|].
    + rewrite Hsome by eauto. lia.
    + rewrite Hnone by done. simpl. lia.
  - by exists out.
Qed.

Lemma processGet_handled tokens sh : handled sh (processGet srv tokens sh).
Proof.
  unfold processGet.
  destruct tokens as [|t0 [|key [|t2 tl]]];
    try (by eapply handled_same_sys).
  pose proof (Get_one_call srv key (sys sh)) as H1.
  destruct (Get srv key (sys sh)) as [[val [err|]] s']; simpl in *;
    by eapply handled_one_call.
Qed.

Lemma processPut_handled tokens sh : handled sh (processPut srv tokens sh).
Proof.
  unfold processPut.
  destruct tokens as [|t0 [|key [|value [|t3 tl]]]];
    try (by eapply handled_same_sys).
  pose proof (Put_one_call srv key value (sys sh)) as H1.
  destruct (Put srv key value (sys sh)) as [[err|] s']; simpl in *;
    by eapply handled_one_call.
Qed.

Lemma processDelete_handled tokens sh : handled sh (processDelete srv tokens sh).
Proof.
  unfold processDelete.
  destruct tokens as [|t0 [|key [|t2 tl]]];
    try (by eapply handled_same_sys).
  pose proof (Delete_one_call srv key (sys sh)) as H1.
  destruct (Delete srv key (sys sh)) as [[err|] s']; simpl in *;
    by eapply handled_one_call.
Qed.

Lemma processStat_handled tokens sh : handled sh (processStat' tokens sh).
Proof.
  unfold processStat.
  pose proof (Stat_one_call srv (sys sh)) as H1.
  destruct (Stat srv (sys sh)) as [[nodes [err|]] s']; simpl in *.
  - by eapply handled_one_call.
  - destruct (sort_Sort nodes); simpl.
    + by eapply handled_one_call.
    + eapply (handled_one_call _ _ []); [done|]. simpl. by rewrite app_nil_r.
Qed.

Lemma processCommand_handled line sh : handled sh (processCommand' line sh).2.
Proof.
  unfold processCommand.
  destruct (SafeSplit line) as [|cmd rest].
  { eapply (handled_same_sys _ _ []); [done|]. simpl. by rewrite app_nil_r. }
  destruct (String.eqb cmd GetCmd); [cbn [snd]; apply processGet_handled|].
  destruct (String.eqb cmd PutCmd); [cbn [snd]; apply processPut_handled|].
  destruct (String.eqb cmd DeleteCmd); [cbn [snd]; apply processDelete_handled|].
  destruct (String.eqb cmd StatCmd); [cbn [snd]; apply processStat_handled|].
  destruct (String.eqb cmd ExitCmd); cbn [snd];
    (eapply (handled_same_sys _ _ []); [done|]; simpl; by rewrite app_nil_r).
Qed.

Lemma known_command_false cmd :
  known_command cmd = false →
  String.eqb cmd GetCmd = false ∧ String.eqb cmd PutCmd = false ∧
  String.eqb cmd DeleteCmd = false ∧ String.eqb cmd StatCmd = false ∧
  String.eqb cmd ExitCmd = false.
Proof.
  unfold known_command. rewrite !orb_false_iff. tauto.
Qed.

Lemma processCommand_unknown line sh cmd rest :
  SafeSplit line = cmd :: rest → known_command cmd = false →
  processCommand' line sh = (Some (errors_New "unknown command"), sh).
Proof.
  intros Hs Hk. unfold processCommand. rewrite Hs.
  destruct (known_command_false cmd Hk) as (-> & -> & -> & -> & ->). done.
Qed.

Lemma processCommand_error line sh :
  (processCommand' line sh).1 ≠ None →
  ∃ cmd rest, SafeSplit line = cmd :: rest ∧ known_command cmd = false.
Proof.
  unfold processCommand, known_command.
  destruct (SafeSplit line) as [|cmd rest]; [done|].
  intros H. exists cmd, rest. split; [done|].
  destruct (String.eqb cmd GetCmd); [done|].
  destruct (String.eqb cmd PutCmd); [done|].
  destruct (String.eqb cmd DeleteCmd); [done|].
  destruct (String.eqb cmd StatCmd); [done|].
  destruct (String.eqb cmd ExitCmd); done.
Qed.

(** A handler that ran has written something, issued a call, or stopped
    the process. *)
Lemma Println_neq text sh sh0 :
  stdout sh0 = stdout sh → Println text sh0 ≠ sh.
Proof.
  intros Ho Heq. apply (f_equal stdout) in Heq. simpl in Heq.
  rewrite Ho in Heq. apply (f_equal length) in Heq.
  rewrite length_app in Heq. simpl in Heq. lia.
Qed.

Lemma processGet_neq tokens sh : processGet srv tokens sh ≠ sh.
Proof.
  unfold processGet.
  destruct tokens as [|t0 [|key [|t2 tl]]]; try (by apply Println_neq).
  destruct (Get srv key (sys sh)) as [[val [err|]] s']; by apply Println_neq.
Qed.

Lemma processPut_neq tokens sh : processPut srv tokens sh ≠ sh.
Proof.
  unfold processPut.
  destruct tokens as [|t0 [|key [|value [|t3 tl]]]]; try (by apply Println_neq).
  destruct (Put srv key value (sys sh)) as [[err|] s']; by apply Println_neq.
Qed.

Lemma processDelete_neq tokens sh : processDelete srv tokens sh ≠ sh.
Proof.
  unfold processDelete.
  destruct tokens as [|t0 [|key [|t2 tl]]]; try (by apply Println_neq).
  destruct (Delete srv key (sys sh)) as [[err|] s']; by apply Println_neq.
Qed.

Lemma processStat_neq tokens sh :
  halted sh = None → processStat' tokens sh ≠ sh.
Proof.
  intros Hh. unfold processStat, Stat.
  destruct (client (self (sys sh))) as [h|] eqn:Hc; [|by apply Println_neq].
  destruct (on_Stat srv (wire (sys sh))) as [err|resp]; [by apply Println_neq|].
  destruct (sort_Sort (Nodes resp)).
  - intros Heq. apply (f_equal (λ x, length (wire (sys x)))) in Heq.
    simpl in Heq. rewrite length_app in Heq. simpl in Heq. lia.
  - intros Heq. apply (f_equal halted) in Heq. simpl in Heq. congruence.
Qed.

End ShellFacts.

(** X17. The start of main: the client is built for the host and port of
    the flags, the read and write levels of the flags replace the ALL of
    the constructor, and the dial decides: on success the process writes
    the connected line and goes on with the session, on failure it writes
    the error line and exits with status 0 without having issued a call;
    nothing is read after that. *)
Theorem X17_main_start
    (srv : Remote) (Itoa : Z → string)
    (sort_Sort : NodeStats → option NodeStats)
    (table_Render : list (list string) → list string)
    (host : string) (port0 : Z) (rl wl : string) :
  (∀ h, dial srv host port0 = inr h →
     main_start srv Itoa host port0 rl wl =
       {| sys := {| self := {| address := host; port := port0; client := Some h;
                               readLevel := rl; writeLevel := wl |};
                    wire := [] |};
          stdout := ["connected to " +:+ host +:+ ":" +:+ Itoa port0 +:+ nl];
          halted := None |}) ∧
  (∀ err, dial srv host port0 = inl err →
     main_start srv Itoa host port0 rl wl =
       {| sys := {| self := {| address := host; port := port0; client := None;
                               readLevel := rl; writeLevel := wl |};
                    wire := [] |};
          stdout := ["error: unable to connect to " +:+ host +:+ ":" +:+
                     Itoa port0 +:+ nl];
          halted := Some (Exited 0) |} ∧
     ∀ commands,
       main_loop srv Itoa sort_Sort table_Render commands
         (main_start srv Itoa host port0 rl wl) =
       main_start srv Itoa host port0 rl wl).
Proof.
  split.
  - intros h Hd. unfold main_start, Connect; simpl. by rewrite Hd.
  - intros err Hd.
    assert (main_start srv Itoa host port0 rl wl =
       {| sys := {| self := {| address := host; port := port0; client := None;
                               readLevel := rl; writeLevel := wl |};
                    wire := [] |};
          stdout := ["error: unable to connect to " +:+ host +:+ ":" +:+
                     Itoa port0 +:+ nl];
          halted := Some (Exited 0) |}) as Hm.
    { unfold main_start, Connect; simpl. by rewrite Hd. }
    split; [done|]. intros commands. rewrite Hm. by destruct commands.
Qed.

Lemma X17_main_start_witness :
  main_start echo_remote decimal "127.0.0.1" 7000 QUORUM QUORUM =
    {| sys := {| self := {| address := "127.0.0.1"; port := 7000;
                            client := Some {| peer_host := "127.0.0.1";
                                              peer_port := 7000 |};
                            readLevel := QUORUM; writeLevel := QUORUM |};
                 wire := [] |};
       stdout := ["connected to 127.0.0.1:7000" +:+ nl];
       halted := None |}.
Proof.
  exact (proj1 (X17_main_start echo_remote decimal keep_order row_lines
                  "127.0.0.1" 7000 QUORUM QUORUM) _ eq_refl).
Defined.

(** X18. processCommand returns an error exactly when the line has a first
    token and that token is none of get, put, del, stat, exit; the error is
    then unknown command, nothing is written and no call is issued. The
    empty line is such a line: its one token is the empty string. Failures
    of the operations themselves are written out, never returned. *)
Theorem X18_unknown_command
    (srv : Remote) (Itoa : Z → string)
    (sort_Sort : NodeStats → option NodeStats)
    (table_Render : list (list string) → list string)
    (line : string) (sh : Shell) :
  ((processCommand srv Itoa sort_Sort table_Render line sh).1 ≠ None ↔
   ∃ cmd rest, SafeSplit line = cmd :: rest ∧ known_command cmd = false) ∧
  ((processCommand srv Itoa sort_Sort table_Render line sh).1 ≠ None →
   processCommand srv Itoa sort_Sort table_Render line sh =
     (Some (errors_New "unknown command"), sh)) ∧
  processCommand srv Itoa sort_Sort table_Render "" sh =
    (Some (errors_New "unknown command"), sh).
Proof.
  split; [split|split].
  - apply processCommand_error.
  - intros (cmd & rest & Hs & Hk).
    by rewrite (processCommand_unknown _ _ _ _ line sh cmd rest Hs Hk).
  - intros (cmd & rest & Hs & Hk)%processCommand_error.
    by apply (processCommand_unknown _ _ _ _ line sh cmd rest).
  - by apply (processCommand_unknown _ _ _ _ "" sh "" []).
Qed.

(** X19. In a running process, a command line passes without any trace (no
    error returned, nothing written, no call issued, the process not
    stopped) exactly when the tokenizer returns no token for it. *)
Theorem X19_silent_line
    (srv : Remote) (Itoa : Z → string)
    (sort_Sort : NodeStats → option NodeStats)
    (table_Render : list (list string) → list string)
    (line : string) (sh : Shell) :
  halted sh = None →
  (processCommand srv Itoa sort_Sort table_Render line sh = (None, sh) ↔
   SafeSplit line = []).
Proof.
  intros Hh. unfold processCommand. split.
  - destruct (SafeSplit line) as [|cmd rest]; [done|]. intros H. exfalso.
    destruct (String.eqb cmd GetCmd).
    { injection H as H. exact (processGet_neq srv (cmd :: rest) sh H). }
    destruct (String.eqb cmd PutCmd).
    { injection H as H. exact (processPut_neq srv (cmd :: rest) sh H). }
    destruct (String.eqb cmd DeleteCmd).
    { injection H as H. exact (processDelete_neq srv (cmd :: rest) sh H). }
    destruct (String.eqb cmd StatCmd).
    { injection H as H.
      exact (processStat_neq srv Itoa sort_Sort table_Render (cmd :: rest) sh Hh H). }
    destruct (String.eqb cmd ExitCmd); [|done].
    injection H as H. apply (f_equal halted) in H. simpl in H. congruence.
  - by intros ->.
Qed.

Lemma X19_silent_line_witness :
  processCommand echo_remote decimal keep_order row_lines line_open_only
    connected_shell = (None, connected_shell).
Proof.
  apply (X19_silent_line echo_remote decimal keep_order row_lines
           line_open_only connected_shell eq_refl).
  vm_compute; reflexivity.
Defined.

(** X20. Whatever the line and whatever the far end answers, handling one
    command line never changes the client object (address, port, session,
    levels), keeps the calls already issued, issues at most one new call,
    none without a session, and only appends to the output. *)
Theorem X20_one_call_per_line
    (srv : Remote) (Itoa : Z → string)
    (sort_Sort : NodeStats → option NodeStats)
    (table_Render : list (list string) → list string)
    (line : string) (sh : Shell) :
  handled sh (processCommand srv Itoa sort_Sort table_Render line sh).2.
Proof. apply processCommand_handled. Qed.

(** X21. A get or del line with a number of tokens other than two, and a
    put line with a number other than three, only writes the usage line of
    its command: no call is issued, no error returned. *)
Theorem X21_usage_on_wrong_arity
    (srv : Remote) (Itoa : Z → string)
    (sort_Sort : NodeStats → option NodeStats)
    (table_Render : list (list string) → list string)
    (line : string) (rest : list string) (sh : Shell) :
  (SafeSplit line = GetCmd :: rest → length rest ≠ 1%nat →
   processCommand srv Itoa sort_Sort table_Render line sh =
     (None, Println "usage: get <key>" sh)) ∧
  (SafeSplit line = PutCmd :: rest → length rest ≠ 2%nat →
   processCommand srv Itoa sort_Sort table_Render line sh =
     (None, Println "usage: put <key> <value>" sh)) ∧
  (SafeSplit line = DeleteCmd :: rest → length rest ≠ 1%nat →
   processCommand srv Itoa sort_Sort table_Render line sh =
     (None, Println "usage: del <key>" sh)).
Proof.
  unfold processCommand.
  split; [|split]; intros -> Hlen; simpl;
    destruct rest as [|a [|b [|c tl]]]; simpl in *; done.
Qed.

Lemma X21_usage_on_wrong_arity_witness :
  processCommand echo_remote decimal keep_order row_lines "get a b" connected_shell =
    (None, Println "usage: get <key>" connected_shell).
Proof.
  apply (proj1 (X21_usage_on_wrong_arity echo_remote decimal keep_order row_lines
                  "get a b" ["a"; "b"] connected_shell)).
  - vm_compute; reflexivity.
  - simpl. lia.
Defined.

(** X22. A text whose first token, once the blanks, carriage returns and
    line feeds at its ends are trimmed, is exit stops the process with
    status 0 after the prompt was written, whatever follows exit on the
    line; no call is issued and the texts after it are never handled. *)
Theorem X22_exit_stops_the_loop
    (srv : Remote) (Itoa : Z → string)
    (sort_Sort : NodeStats → option NodeStats)
    (table_Render : list (list string) → list string)
    (command : string) (rest : list string) (later : list string) (sh : Shell) :
  halted sh = None →
  SafeSplit (Trim command trim_cutset) = ExitCmd :: rest →
  main_loop srv Itoa sort_Sort table_Render (command :: later) sh =
    halt (Exited 0) (Print "> " sh).
Proof.
  intros Hh Hs. cbn [main_loop]. rewrite Hh.
  assert (main_turn srv Itoa sort_Sort table_Render command sh =
          halt (Exited 0) (Print "> " sh)) as ->.
  { unfold main_turn, processCommand. by rewrite Hs. }
  by destruct later.
Qed.

Lemma X22_exit_stops_the_loop_witness :
  main_loop echo_remote decimal keep_order row_lines
    [text_exit_now; text_stat] connected_shell =
  halt (Exited 0) (Print "> " connected_shell).
Proof.
  apply (X22_exit_stops_the_loop echo_remote decimal keep_order row_lines
           text_exit_now ["now"] [text_stat] connected_shell eq_refl).
  vm_compute; reflexivity.
Defined.

(** X23. Without a session, every get, put and del line of the right
    number of tokens and every stat line writes the line error: not
    connected and nothing else happens: no call, no error returned, the
    process goes on. *)
Theorem X23_commands_without_session
    (srv : Remote) (Itoa : Z → string)
    (sort_Sort : NodeStats → option NodeStats)
    (table_Render : list (list string) → list string)
    (line : string) (key value : string) (rest : list string) (sh : Shell) :
  client (self (sys sh)) = None →
  SafeSplit line = [GetCmd; key] ∨ SafeSplit line = [PutCmd; key; value] ∨
  SafeSplit line = [DeleteCmd; key] ∨ SafeSplit line = StatCmd :: rest →
  processCommand srv Itoa sort_Sort table_Render line sh =
    (None, Println "error: not connected" sh).
Proof.
  intros Hc Hs. unfold processCommand.
  destruct Hs as [-> | [-> | [-> | ->]]]; simpl;
    unfold processGet, processPut, processDelete, processStat,
      Get, Put, Delete, Stat; rewrite Hc; simpl;
    unfold with_sys; by destruct sh.
Qed.

Lemma X23_commands_without_session_witness :
  processCommand echo_remote decimal keep_order row_lines line_put_k_quoted
    fresh_shell = (None, Println "error: not connected" fresh_shell).
Proof.
  apply (X23_commands_without_session echo_remote decimal keep_order row_lines
           line_put_k_quoted "k" "a b" [] fresh_shell eq_refl).
  right; left. vm_compute; reflexivity.
Defined.

(* ===================================================================== *)
(** * The order of the nodes                                              *)
(* ===================================================================== *)

Section NodeOrder.

Variable Atoi : string → Z.

Implicit Types (ns : NodeStats) (i j k : nat) (a b c : string).

Lemma compare_refl a : String.compare a a = Eq.
Proof.
  pose proof (String.compare_antisym a a) as H.
  destruct (String.compare a a); simpl in H; congruence.
Qed.

Lemma ltb_leb a b : String.ltb a b = true ↔ String.leb a b = true ∧ a ≠ b.
Proof.
  unfold String.ltb, String.leb.
  destruct (String.compare a b) eqn:Hc.
  - apply String.compare_eq_iff in Hc. subst. split; [done|]. by intros [_ ?].
  - split; [|done]. intros _. split; [done|].
    intros ->. rewrite compare_refl in Hc. discriminate.
  - split; [done|]. by intros [? _].
Qed.

Lemma ltb_irrefl a : String.ltb a a = false.
Proof.
  destruct (String.ltb a a) eqn:H; [|done].
  apply ltb_leb in H as [_ H]. done.
Qed.

Lemma ltb_trans a b c :
  String.ltb a b = true → String.ltb b c = true → String.ltb a c = true.
Proof.
  rewrite !ltb_leb. intros [Hab Hne1] [Hbc Hne2].
  assert (String.le a b) as Lab by (unfold String.le; by rewrite Hab).
  assert (String.le b c) as Lbc by (unfold String.le; by rewrite Hbc).
  split.
  - pose proof (transitivity Lab Lbc) as Lac. unfold String.le in Lac.
    by destruct (String.leb a c).
  - intros ->. apply Hne1. by apply (anti_symm String.le).
Qed.

Lemma ltb_total a b :
  String.ltb a b = false → String.ltb b a = false → a = b.
Proof.
  unfold String.ltb. rewrite (String.compare_antisym a b).
  destruct (String.compare b a) eqn:Hc; simpl; try done.
  intros _ _. symmetry. by apply String.compare_eq_iff.
Qed.

Lemma key_lt_irrefl (x : string * Z) : key_lt x x = false.
Proof.
  unfold key_lt. rewrite String.eqb_refl. simpl. apply Z.ltb_irrefl.
Qed.

Lemma key_lt_trans (x y z : string * Z) :
  key_lt x y = true → key_lt y z = true → key_lt x z = true.
Proof.
  destruct x as [h1 p1], y as [h2 p2], z as [h3 p3]. unfold key_lt; simpl.
  destruct (String.eqb_spec h1 h2) as [E12|N12],
           (String.eqb_spec h2 h3) as [E23|N23],
           (String.eqb_spec h1 h3) as [E13|N13];
    subst; simpl; try congruence; intros Ha Hb; try done.
  - apply Z.ltb_lt in Ha, Hb. apply Z.ltb_lt. lia.
  - pose proof (ltb_trans _ _ _ Ha Hb) as Hc. by rewrite ltb_irrefl in Hc.
  - by apply (ltb_trans h1 h2 h3).
Qed.

Lemma key_lt_asym (x y : string * Z) : key_lt x y = true → key_lt y x = false.
Proof.
  intros H. destruct (key_lt y x) eqn:H'; [|done].
  pose proof (key_lt_trans _ _ _ H H') as Hxx.
  by rewrite key_lt_irrefl in Hxx.
Qed.

Lemma key_lt_incomparable (x y : string * Z) :
  key_lt x y = false → key_lt y x = false → x = y.
Proof.
  destruct x as [h1 p1], y as [h2 p2]. unfold key_lt; simpl.
  destruct (String.eqb_spec h1 h2) as [E12|N12],
           (String.eqb_spec h2 h1) as [E21|N21];
    subst; simpl; try congruence; intros Ha Hb.
  - apply Z.ltb_ge in Ha, Hb. f_equal. lia.
  - by pose proof (ltb_total _ _ Ha Hb).
Qed.

(** Where both addresses have a colon, [Less] is the order of the keys. *)
Lemma Less_by_key ns i j ni nj pi pj :
  ns !! i = Some ni → ns !! j = Some nj →
  port_text ni = Some pi → port_text nj = Some pj →
  Less Atoi ns i j = Some (key_lt (host_of ni, Atoi pi) (host_of nj, Atoi pj)).
Proof.
  unfold Less, port_text, host_of, key_lt. intros -> -> Hpi Hpj. simpl.
  destruct (strings.Split (Address ni) colon) as [|hi [|pi' ri]]; try done.
  destruct (strings.Split (Address nj) colon) as [|hj [|pj' rj]]; try done.
  simplify_eq. by destruct (negb (String.eqb hi hj)).
Qed.

Lemma has_port_text (n : NodeStat) :
  (2 ≤ length (strings.Split (Address n) colon))%nat → is_Some (port_text n).
Proof.
  unfold port_text.
  destruct (strings.Split (Address n) colon) as [|h [|p r]]; simpl; try lia.
  eauto.
Qed.

End NodeOrder.

(** X24. On a list of nodes whose addresses all have a colon, Less does not
    panic for indices in range and is a strict weak order, the order of the
    host text first and of the number Atoi gives for the port text second:
    it is irreflexive, asymmetric and transitive, and two nodes that are
    each not less than the other have the same place towards every third
    node. *)
Theorem X24_Less_strict_weak_order
    (Atoi : string → Z) (ns : NodeStats) (i j k : nat) :
  Forall has_port ns →
  (i < length ns)%nat → (j < length ns)%nat → (k < length ns)%nat →
  Less Atoi ns i i = Some false ∧
  is_Some (Less Atoi ns i j) ∧
  (Less Atoi ns i j = Some true → Less Atoi ns j i = Some false) ∧
  (Less Atoi ns i j = Some true → Less Atoi ns j k = Some true →
   Less Atoi ns i k = Some true) ∧
  (Less Atoi ns i j = Some false → Less Atoi ns j i = Some false →
   Less Atoi ns i k = Less Atoi ns j k ∧ Less Atoi ns k i = Less Atoi ns k j).
Proof.
  intros Hall Hi Hj Hk.
  destruct (lookup_lt_is_Some_2 ns i Hi) as [ni Hni].
  destruct (lookup_lt_is_Some_2 ns j Hj) as [nj Hnj].
  destruct (lookup_lt_is_Some_2 ns k Hk) as [nk Hnk].
  rewrite Forall_lookup in Hall.
  destruct (has_port_text ni (Hall i ni Hni)) as [pi Hpi].
  destruct (has_port_text nj (Hall j nj Hnj)) as [pj Hpj].
  destruct (has_port_text nk (Hall k nk Hnk)) as [pk Hpk].
  rewrite (Less_by_key Atoi ns i i ni ni pi pi) by done.
  rewrite (Less_by_key Atoi ns i j ni nj pi pj) by done.
  rewrite (Less_by_key Atoi ns j i nj ni pj pi) by done.
  rewrite (Less_by_key Atoi ns j k nj nk pj pk) by done.
  rewrite (Less_by_key Atoi ns i k ni nk pi pk) by done.
  rewrite (Less_by_key Atoi ns k i nk ni pk pi) by done.
  rewrite (Less_by_key Atoi ns k j nk nj pk pj) by done.
  split; [by rewrite key_lt_irrefl|].
  split; [eauto|].
  split; [intros [= H]; f_equal; by apply key_lt_asym|].
  split.
  - intros [= H1] [= H2]. f_equal. by eapply key_lt_trans.
  - intros [= H1] [= H2].
    by rewrite (key_lt_incomparable _ _ H1 H2).
Qed.

Lemma X24_Less_strict_weak_order_witness :
  Less numeral_value three_nodes 2 1 = Some true ∧
  Less numeral_value three_nodes 1 0 = Some true ∧
  Less numeral_value three_nodes 2 0 = Some true.
Proof.
  assert (Forall has_port three_nodes) as Hall
    by (repeat constructor; unfold has_port; vm_compute; lia).
  assert (Less numeral_value three_nodes 2 1 = Some true) as H21
    by (vm_compute; reflexivity).
  assert (Less numeral_value three_nodes 1 0 = Some true) as H10
    by (vm_compute; reflexivity).
  split; [exact H21|]. split; [exact H10|].
  destruct (X24_Less_strict_weak_order numeral_value three_nodes 2 1 0 Hall)
    as (_ & _ & _ & Htrans & _); [simpl; lia..|].
  exact (Htrans H21 H10).
Defined.

(** X25. Less panics in exactly these cases: one of the two indices is out
    of range, or the two addresses have the same text before the first
    colon and one of them has no colon at all (so two nodes reporting the
    same bare host name make the comparison, and the sort that calls it,
    panic). *)
Theorem X25_Less_panics (Atoi : string → Z) (ns : NodeStats) (i j : nat) :
  Less Atoi ns i j = None ↔
  (length ns ≤ i)%nat ∨ (length ns ≤ j)%nat ∨
  ∃ ni nj, ns !! i = Some ni ∧ ns !! j = Some nj ∧
           host_of ni = host_of nj ∧ (¬ has_port ni ∨ ¬ has_port nj).
Proof.
  unfold Less.
  destruct (ns !! i) as [ni|] eqn:Hni.
  2: { split; [intros _; left; by apply lookup_ge_None|done]. }
  destruct (ns !! j) as [nj|] eqn:Hnj.
  2: { split; [intros _; right; left; by apply lookup_ge_None|done]. }
  pose proof (lookup_lt_Some _ _ _ Hni) as Hli.
  pose proof (lookup_lt_Some _ _ _ Hnj) as Hlj.
  assert ((∃ ni' nj', Some ni = Some ni' ∧ Some nj = Some nj' ∧
             host_of ni' = host_of nj' ∧ (¬ has_port ni' ∨ ¬ has_port nj')) ↔
          host_of ni = host_of nj ∧ (¬ has_port ni ∨ ¬ has_port nj)) as Hex.
  { split.
    - by intros (ni' & nj' & [= <-] & [= <-] & ? & ?).
    - intros [? ?]. by exists ni, nj. }
  assert (∀ P : Prop, P ↔
            (length ns ≤ i)%nat ∨ (length ns ≤ j)%nat ∨ P) as Hor
    by (intros P; split; [tauto|intros [?|[?|?]]; [lia|lia|done]]).
  rewrite <- Hor, Hex. clear Hor Hex.
  unfold host_of, has_port.
  pose proof (Split_not_nil (Address ni) colon) as Hi0.
  pose proof (Split_not_nil (Address nj) colon) as Hj0.
  destruct (strings.Split (Address ni) colon) as [|hi ti]; [done|].
  destruct (strings.Split (Address nj) colon) as [|hj tj]; [done|].
  destruct (String.eqb_spec hi hj) as [->|Hne]; simpl.
  - destruct ti as [|pi ri], tj as [|pj rj]; simpl; split; try done.
    + intros _. split; [done|]. left. lia.
    + intros _. split; [done|]. left. lia.
    + intros _. split; [done|]. right. lia.
    + intros [_ [H|H]]; lia.
  - split; [done|]. by intros [? _].
Qed.

(** X26. For two indices in range, Swap exchanges the two nodes and
    nothing else: the result has the same nodes (it is a permutation of the
    same length), the nodes at the two positions are exchanged, and a
    second Swap of the same positions gives the list back. With an index
    out of range it panics. *)
Theorem X26_Swap_is_a_transposition (ns : list NodeStat) (i j : nat) :
  ((length ns ≤ i)%nat ∨ (length ns ≤ j)%nat → Swap ns i j = None) ∧
  ((i < length ns)%nat → (j < length ns)%nat →
   ∃ ns', Swap ns i j = Some ns' ∧
          (∀ k, ns' !! k = ns !! transpose i j k) ∧
          ns' ≡ₚ ns ∧ Len ns' = Len ns ∧
          Swap ns' i j = Some ns).
Proof.
  split.
  - unfold Swap, NodeStats. intros H.
    destruct (ns !! i) as [ni|] eqn:Hni; [|done].
    destruct (ns !! j) as [nj|] eqn:Hnj; [|done].
    apply lookup_lt_Some in Hni, Hnj. lia.
  - intros Hi Hj. unfold Swap, Len, NodeStats.
    destruct (lookup_lt_is_Some_2 ns i Hi) as [ni Hni].
    destruct (lookup_lt_is_Some_2 ns j Hj) as [nj Hnj].
    assert (∀ k, <[j:=ni]> (<[i:=nj]> ns) !! k = ns !! transpose i j k) as Hlk.
    { intros k. unfold transpose.
      rewrite !list_lookup_insert, !length_insert.
      repeat case_decide; destruct_and?; simplify_eq; try done; try lia;
        congruence. }
    exists (<[j:=ni]> (<[i:=nj]> ns)).
    split; [by rewrite Hni, Hnj|].
    split; [done|]. split; [|split].
    + apply Permutation_inj. split; [by rewrite !length_insert|].
      exists (transpose i j). split; [|done].
      intros a b. unfold transpose. repeat case_decide; congruence.
    + by rewrite !length_insert.
    + rewrite !Hlk. unfold transpose at 1 2.
      rewrite decide_True by done.
      destruct (decide (j = i)) as [->|Hne].
      * rewrite Hni. f_equal. apply list_eq. intros k.
        rewrite !list_lookup_insert, !length_insert.
        repeat case_decide; destruct_and?; simplify_eq; try done; try lia;
          congruence.
      * rewrite decide_True by done. rewrite Hnj, Hni. f_equal.
        apply list_eq. intros k.
        rewrite !list_lookup_insert, !length_insert.
        repeat case_decide; destruct_and?; simplify_eq; try done; try lia;
          congruence.
Qed.

Lemma X26_Swap_is_a_transposition_witness :
  ∃ ns', Swap three_nodes 0 2 = Some ns' ∧ Swap ns' 0 2 = Some three_nodes.
Proof.
  destruct (proj2 (X26_Swap_is_a_transposition three_nodes 0 2))
    as (ns' & H1 & _ & _ & _ & H2).
  - vm_compute. lia.
  - vm_compute. lia.
  - exists ns'. by split.
Defined.

(* ===================================================================== *)
(** * The rest of [util/util.go]                                          *)
(* ===================================================================== *)

(** SelectIntOpt and SelectDurationOpt treat exactly the value zero as
    not given: a non-zero option, negative ones included, is returned as it
    is, so the result is zero only when the option and the default are both
    zero, and selecting a second time with the same default changes
    nothing. *)
Theorem Select_zero_means_unset (opt def : Z) :
  (opt ≠ 0 → SelectIntOpt opt def = opt ∧ SelectDurationOpt opt def = opt) ∧
  (SelectIntOpt opt def = 0 ↔ opt = 0 ∧ def = 0) ∧
  (SelectDurationOpt opt def = 0 ↔ opt = 0 ∧ def = 0) ∧
  SelectIntOpt (SelectIntOpt opt def) def = SelectIntOpt opt def ∧
  SelectDurationOpt (SelectDurationOpt opt def) def = SelectDurationOpt opt def.
Proof.
  unfold SelectIntOpt, SelectDurationOpt.
  destruct (Z.eqb_spec opt 0) as [->|Hne]; simpl.
  - repeat split; try done; try tauto; destruct (Z.eqb_spec def 0); done.
  - destruct (Z.eqb_spec opt 0); [done|]. repeat split; try done; tauto.
Qed.

Section LocalIPFacts.

Variable IP : Type.
Variable IsLoopback : IP → bool.
Variable To4 : IP → option IP.
Variable IP_String : IP → string.

Local Abbreviation usable' := (usable IP IsLoopback To4).
Local Abbreviation scan' := (GetLocalIP_scan IP IsLoopback To4 IP_String).

Lemma GetLocalIP_scan_skip pre rest :
  (∀ a, a ∈ pre → usable' a = false) →
  scan' (pre ++ rest) = scan' rest.
Proof.
  induction pre as [|a pre IH]; intros Hpre; [done|]. simpl.
  pose proof (Hpre a ltac:(left)) as Ha.
  rewrite IH by (intros b Hb; apply Hpre; by right).
  destruct a as [ip|]; [|done]. simpl in Ha.
  destruct (negb (IsLoopback ip)); [|done].
  by destruct (To4 ip).
Qed.

End LocalIPFacts.

(** X27. GetLocalIP returns the text of the first interface address that is
    an IP network address, not a loopback address and has a 4-byte form,
    whatever comes after it; it returns 127.0.0.1 when the addresses cannot
    be listed or none of them is of that kind. *)
Theorem X27_GetLocalIP_first_usable
    (IP : Type) (IsLoopback : IP → bool) (To4 : IP → option IP)
    (IP_String : IP → string) :
  (∀ err, GetLocalIP IP IsLoopback To4 IP_String (inl err) = loopbackIP) ∧
  (∀ addrs,
     (∀ a, a ∈ addrs → usable IP IsLoopback To4 a = false) →
     GetLocalIP IP IsLoopback To4 IP_String (inr addrs) = loopbackIP) ∧
  (∀ pre ip post,
     (∀ a, a ∈ pre → usable IP IsLoopback To4 a = false) →
     usable IP IsLoopback To4 (Addr_IPNet IP ip) = true →
     GetLocalIP IP IsLoopback To4 IP_String (inr (pre ++ Addr_IPNet IP ip :: post))
       = IP_String ip).
Proof.
  split; [done|]. split.
  - intros addrs Hnone. simpl.
    rewrite <- (app_nil_r addrs). by rewrite GetLocalIP_scan_skip.
  - intros pre ip post Hpre Hip. simpl. rewrite GetLocalIP_scan_skip by done.
    simpl in *. apply andb_true_iff in Hip as [-> Hv].
    by destruct (To4 ip).
Qed.

Lemma X27_GetLocalIP_first_usable_witness :
  GetLocalIP quad quad_loopback quad_To4 quad_String
    (inr [Addr_other quad; Addr_IPNet quad (127, 0, 0, 1);
          Addr_IPNet quad (192, 168, 1, 7); Addr_IPNet quad (10, 0, 0, 3)])
  = "192.168.1.7".
Proof.
  apply (proj2 (proj2 (X27_GetLocalIP_first_usable
           quad quad_loopback quad_To4 quad_String))
         [Addr_other quad; Addr_IPNet quad (127, 0, 0, 1)] (192, 168, 1, 7)
         [Addr_IPNet quad (10, 0, 0, 3)]).
  - intros a Ha.
    repeat (apply elem_of_cons in Ha as [->|Ha]; [reflexivity|]).
    by apply elem_of_nil in Ha.
  - reflexivity.
Defined.

Section RenderingFacts.

Variable Itoa : Z → string.

Local Abbreviation cell' := (String_cell Itoa).
Local Abbreviation along' := (String_along Itoa).

Implicit Types (o : list (string * ClockEntry)).

Lemma length_append (s t : string) :
  String.length (s +:+ t) = (String.length s + String.length t)%nat.
Proof.
  induction s as [|c s IH]; [done|]. rewrite append_cons. simpl. by rewrite IH.
Qed.

Lemma foldl_cells acc o :
  foldl (λ result kv, result +:+ cell' kv) acc o = acc +:+ along' o.
Proof.
  unfold String_along. revert acc.
  induction o as [|kv o IH]; intros acc; simpl.
  - by rewrite append_nil_r.
  - rewrite append_nil_l. rewrite IH, (IH (cell' kv)). by rewrite append_assoc.
Qed.

Lemma String_along_cons kv o : along' (kv :: o) = cell' kv +:+ along' o.
Proof. unfold String_along at 1. simpl. apply foldl_cells. Qed.

Lemma String_along_app o1 o2 : along' (o1 ++ o2) = along' o1 +:+ along' o2.
Proof.
  induction o1 as [|kv o1 IH]; [done|].
  simpl. by rewrite !String_along_cons, IH, append_assoc.
Qed.

Lemma String_along_length_perm o1 o2 :
  o1 ≡ₚ o2 → String.length (along' o1) = String.length (along' o2).
Proof.
  induction 1 as [|kv o1 o2 _ IH|kv1 kv2 o|o1 o2 o3 _ IH1 _ IH2].
  - done.
  - by rewrite !String_along_cons, !length_append, IH.
  - rewrite !String_along_cons, !length_append. lia.
  - congruence.
Qed.

Lemma String_cell_length kv : (2 ≤ String.length (cell' kv))%nat.
Proof.
  unfold String_cell. rewrite !length_append. simpl. lia.
Qed.

End RenderingFacts.

(** X28. In whatever order the entries are visited, the text String builds
    lists every stored node, as its ID, a colon, its counter and a space,
    in one piece; the text is empty exactly for a clock without entries;
    and its length is the same for every order. *)
Theorem X28_String_lists_every_entry
    (Itoa : Z → string) (vc : VectorClock) (o : list (string * ClockEntry)) :
  o ≡ₚ map_to_list (Entries vc) →
  (∀ n e, Entries vc !! n = Some e →
     ∃ before after,
       String_along Itoa o =
         before +:+ (n +:+ ":" +:+ Itoa (Counter e) +:+ " ") +:+ after) ∧
  (String_along Itoa o = "" ↔ Entries vc = ∅) ∧
  String.length (String_along Itoa o) =
    String.length (VectorClock_String Itoa vc).
Proof.
  intros Hperm. split; [|split].
  - intros n e He.
    assert ((n, e) ∈ o) as Hin by (rewrite Hperm; by apply elem_of_map_to_list).
    apply list_elem_of_split in Hin as (o1 & o2 & ->).
    exists (String_along Itoa o1), (String_along Itoa o2).
    by rewrite String_along_app, String_along_cons.
  - split.
    + intros Hnil. apply map_to_list_empty_iff.
      destruct o as [|kv o].
      * by apply Permutation_nil_l in Hperm.
      * exfalso. rewrite String_along_cons in Hnil.
        apply (f_equal String.length) in Hnil.
        rewrite length_append in Hnil.
        pose proof (String_cell_length Itoa kv). simpl in Hnil. lia.
    + intros Hempty. rewrite Hempty, map_to_list_empty in Hperm.
      by apply Permutation_nil_r in Hperm as ->.
  - by apply String_along_length_perm.
Qed.

Lemma X28_String_lists_every_entry_witness :
  ∃ before after,
    String_along decimal (reverse (map_to_list (Entries clock_n1_n2))) =
      before +:+ ("n2" +:+ ":" +:+ decimal 1 +:+ " ") +:+ after.
Proof.
  apply (proj1 (X28_String_lists_every_entry decimal clock_n1_n2
                  (reverse (map_to_list (Entries clock_n1_n2)))
                  (reverse_Permutation _)) "n2"
               {| NodeID := "n2"; Counter := 1; Updated := 15 |}).
  vm_compute; reflexivity.
Defined.

(** X29. End to end, with a session: a line that tokenizes to get and a key
    sends one SwimRing.Get call with the read level and that key and writes
    the value answered, or the word error, a colon and the message of the
    error answered; a line that tokenizes to put, a key and a value (a
    quoted span counts as one value) sends one SwimRing.Put call with the
    write level, the key and the value and writes ok, or the error line.
    Nothing is returned as an error in either case. *)
Theorem X29_get_and_put_lines
    (srv : Remote) (Itoa : Z → string)
    (sort_Sort : NodeStats → option NodeStats)
    (table_Render : list (list string) → list string)
    (line key value : string) (h : rpc_Client) (sh : Shell) :
  client (self (sys sh)) = Some h →
  (SafeSplit line = [GetCmd; key] →
   let req := {| get_Level := readLevel (self (sys sh)); get_Key := key |} in
   processCommand srv Itoa sort_Sort table_Render line sh =
     (None,
      Println
        match on_Get srv (wire (sys sh)) req with
        | inl err => "error: " +:+ Error err
        | inr resp => resp_Value resp
        end
        (with_sys (issue h GetOp (ArgsGet req) (sys sh)) sh))) ∧
  (SafeSplit line = [PutCmd; key; value] →
   let req := {| put_Level := writeLevel (self (sys sh)); put_Key := key;
                 put_Value := value |} in
   processCommand srv Itoa sort_Sort table_Render line sh =
     (None,
      Println
        match on_Put srv (wire (sys sh)) req with
        | Some err => "error: " +:+ Error err
        | None => "ok"
        end
        (with_sys (issue h PutOp (ArgsPut req) (sys sh)) sh))).
Proof.
  intros Hc. unfold processCommand. split; intros ->; simpl.
  - unfold processGet, Get. rewrite Hc.
    by destruct (on_Get srv (wire (sys sh)) _).
  - unfold processPut, Put. rewrite Hc.
    by destruct (on_Put srv (wire (sys sh)) _).
Qed.

Lemma X29_get_and_put_lines_witness :
  wire (sys (processCommand echo_remote decimal keep_order row_lines
               line_put_k_quoted connected_shell).2) =
    [{| ev_session := {| peer_host := "127.0.0.1"; peer_port := 7000 |};
        ev_method := PutOp;
        ev_args := ArgsPut {| put_Level := ONE; put_Key := "k";
                              put_Value := "a b" |} |}] ∧
  stdout (processCommand echo_remote decimal keep_order row_lines
            line_put_k_quoted connected_shell).2 = ["ok" +:+ nl].
Proof.
  rewrite (proj2 (X29_get_and_put_lines echo_remote decimal keep_order row_lines
                    line_put_k_quoted "k" "a b"
                    {| peer_host := "127.0.0.1"; peer_port := 7000 |}
                    connected_shell eq_refl)).
  - split; reflexivity.
  - vm_compute; reflexivity.
Defined.
